(** * SOJ (Secure Online Judge): the judgement pipeline and the score aggregator

    A shallow embedding of the Go sources
    - [types/types.go]     (records, [Userface.Write], [CalculateTotalScore]),
    - [types/database.go]  (the store operations and the aggregator),
    - the evaluator of package [judge] ([RunJudge], [submitFile], [copyFile]),
    - [main.go]            (the submission context built by [handleSubmit]).

    Conventions of the embedding.
    - A Go [float64] score is an exact rational ([Qc]); rounding, NaN and the
      infinities of IEEE arithmetic are outside the model.
    - Go's [int]/[int64] are [Z] and [uint64] is [N]; no operation of the
      modelled code comes near the 64-bit bounds.
    - A Go [map[string]T] is a [gmap string T]; reading a missing key yields
      the zero value of [T] ([lookup0]), the two-result form yields an option.
    - The SQLite store is held in memory: the submissions table is the list
      of its rows in storage order, the users table is a finite map from the
      primary key to the row.  Store calls are taken to succeed.
    - The outside world seen by [RunJudge] (file system, container driver,
      clock) answers through an oracle record. *)

From Stdlib Require Import QArith Qcanon Ascii.
From stdpp Require Import pretty numbers gmap strings fin_maps list.

Open Scope string_scope.

(** ** Numbers *)

Abbreviation float64 := Qc (only parsing).

Definition f64_lt (x y : float64) : bool := bool_decide (x < y)%Qc.

(** ** types/types.go: the records *)

Module JudgeResult.
Record t := mk {
  Success : bool;
  Score   : float64;
  Msg     : string;
  Memory  : N;
  Time    : N
}.
Definition zero : t := mk false 0%Qc "" 0%N 0%N.
End JudgeResult.

Module WorkflowStepResult.
Record t := mk {
  Logs     : string;
  ExitCode : Z
}.
Definition zero : t := mk "" 0.
End WorkflowStepResult.

Module WorkflowResult.
Record t := mk {
  Success  : bool;
  Logs     : string;
  ExitCode : Z;
  Steps    : list WorkflowStepResult.t
}.
End WorkflowResult.

Module SubmitHash.
Record t := mk {
  Path : string;
  Hash : string
}.
End SubmitHash.

Module Submit.
Record t := mk {
  Path  : string;
  IsDir : bool
}.
End Submit.

Module Mount.
Record t := mk {
  Type_    : string;
  Source   : string;
  Target   : string;
  ReadOnly : bool
}.
End Mount.

Module Workflow.
Record t := mk {
  Image           : string;
  Steps           : list string;
  Timeout         : Z;
  Root            : bool;
  DisableNetwork  : bool;
  Show            : list Z;
  PrivilegedSteps : list Z;
  NetworkHostMode : bool;
  Mounts          : list Mount.t
}.
End Workflow.

Module Problem.
Record t := mk {
  Version  : Z;
  Id       : string;
  Text     : string;
  Weight   : float64;
  Submits  : list Submit.t;
  Workflow : list Workflow.t
}.
End Problem.

(** The persisted and the path fields of [SubmitCtx].  The closing of the
    channel [Running] is an event of the run below; what is printed to the
    [Userface] is left out: [RunJudge] discards the results of its prints,
    which cannot fail ([Userface_Write]). *)
Module SubmitCtx.
Record t := mk {
  ID              : string;
  User            : string;
  Problem         : string;
  SubmitTime      : Z;
  LastUpdate      : Z;
  Status          : string;
  Msg             : string;
  SubmitDir       : string;
  SubmitsHashes   : list SubmitHash.t;
  Workdir         : string;
  WorkflowResults : list WorkflowResult.t;
  JudgeResult     : JudgeResult.t;
  RealWorkdir     : string
}.

Definition with_Status (v : string) (c : t) : t :=
  mk (ID c) (User c) (Problem c) (SubmitTime c) (LastUpdate c) v (Msg c)
     (SubmitDir c) (SubmitsHashes c) (Workdir c) (WorkflowResults c)
     (JudgeResult c) (RealWorkdir c).
Definition with_Msg (v : string) (c : t) : t :=
  mk (ID c) (User c) (Problem c) (SubmitTime c) (LastUpdate c) (Status c) v
     (SubmitDir c) (SubmitsHashes c) (Workdir c) (WorkflowResults c)
     (JudgeResult c) (RealWorkdir c).
Definition with_LastUpdate (v : Z) (c : t) : t :=
  mk (ID c) (User c) (Problem c) (SubmitTime c) v (Status c) (Msg c)
     (SubmitDir c) (SubmitsHashes c) (Workdir c) (WorkflowResults c)
     (JudgeResult c) (RealWorkdir c).
Definition with_SubmitsHashes (v : list SubmitHash.t) (c : t) : t :=
  mk (ID c) (User c) (Problem c) (SubmitTime c) (LastUpdate c) (Status c)
     (Msg c) (SubmitDir c) v (Workdir c) (WorkflowResults c)
     (JudgeResult c) (RealWorkdir c).
Definition with_WorkflowResults (v : list WorkflowResult.t) (c : t) : t :=
  mk (ID c) (User c) (Problem c) (SubmitTime c) (LastUpdate c) (Status c)
     (Msg c) (SubmitDir c) (SubmitsHashes c) (Workdir c) v
     (JudgeResult c) (RealWorkdir c).
Definition with_JudgeResult (v : JudgeResult.t) (c : t) : t :=
  mk (ID c) (User c) (Problem c) (SubmitTime c) (LastUpdate c) (Status c)
     (Msg c) (SubmitDir c) (SubmitsHashes c) (Workdir c) (WorkflowResults c)
     v (RealWorkdir c).

(** [func (ctx *SubmitCtx) SetStatus(status string)] at time [now]. *)
Definition SetStatus (now : Z) (status : string) (c : t) : t :=
  with_LastUpdate now (with_Status status c).

(** [func (ctx *SubmitCtx) SetMsg(msg string)] at time [now]. *)
Definition SetMsg (now : Z) (msg : string) (c : t) : t :=
  with_LastUpdate now (with_Msg msg c).
End SubmitCtx.

Module User.
Record t := mk {
  ID             : string;
  Token          : string;
  BestScores     : gmap string float64;
  BestSubmits    : gmap string string;
  BestSubmitDate : gmap string Z;
  TotalScore     : float64
}.

Definition with_TotalScore (v : float64) (u : t) : t :=
  mk (ID u) (Token u) (BestScores u) (BestSubmits u) (BestSubmitDate u) v.

(** The three assignments [u.BestScores[p] = w], [u.BestSubmits[p] = id],
    [u.BestSubmitDate[p] = date] of the aggregator. *)
Definition set_best (p : string) (w : float64) (id : string) (date : Z)
    (u : t) : t :=
  mk (ID u) (Token u) (<[p := w]> (BestScores u)) (<[p := id]> (BestSubmits u))
     (<[p := date]> (BestSubmitDate u)) (TotalScore u).

(** The three [make(map...)] of the targeted rescan. *)
Definition reset_best (u : t) : t :=
  mk (ID u) (Token u) ∅ ∅ ∅ (TotalScore u).

(** [func (u *User) CalculateTotalScore()]: the loop [total += s] over the
    values of [BestScores]. *)
Definition sum_scores (m : gmap string float64) : float64 :=
  map_fold (λ _ s total, (total + s)%Qc) 0%Qc m.

Definition CalculateTotalScore (u : t) : t :=
  with_TotalScore (sum_scores (BestScores u)) u.
End User.

(** Reading a Go map of scores at a key that may be missing: the zero value. *)
Definition lookup0 (m : gmap string float64) (k : string) : float64 :=
  default 0%Qc (m !! k).

(** ** types/database.go: the store *)

(** The two tables behind [ds.db].  [submits] lists the rows in the order
    [db.Find] returns them; [users] maps the primary key to its row. *)
Record DB := mkDB {
  submits : list SubmitCtx.t;
  users   : gmap string User.t
}.

Definition with_users (us : gmap string User.t) (db : DB) : DB :=
  mkDB (submits db) us.
Definition with_submits (ss : list SubmitCtx.t) (db : DB) : DB :=
  mkDB ss (users db).

(** The primary key of a user row is its [ID] field. *)
Definition users_keyed (us : gmap string User.t) : Prop :=
  map_Forall (λ k u, User.ID u = k) us.

#[export] Instance users_keyed_dec us : Decision (users_keyed us).
Proof. unfold users_keyed. apply _. Defined.

(** [db.Save(&submit)]: update the row with this primary key, or add one. *)
Fixpoint save_submit (s : SubmitCtx.t) (rows : list SubmitCtx.t)
    : list SubmitCtx.t :=
  match rows with
  | [] => [s]
  | r :: rows' =>
      if decide (SubmitCtx.ID r = SubmitCtx.ID s) then s :: rows'
      else r :: save_submit s rows'
  end.

(** [db.Save(user)]. *)
Definition save_user (u : User.t) (us : gmap string User.t)
    : gmap string User.t :=
  <[User.ID u := u]> us.

Definition is_terminal (status : string) : bool :=
  bool_decide (status = "completed") || bool_decide (status = "dead")
  || bool_decide (status = "failed").

(** [NewDatabaseService]: after the migrations, the statement
    [Where("status != ? AND status != ? AND status != ?", "completed",
    "dead", "failed").Update("status", "dead")]. *)
Definition reap (s : SubmitCtx.t) : SubmitCtx.t :=
  if is_terminal (SubmitCtx.Status s) then s
  else SubmitCtx.with_Status "dead" s.

Definition NewDatabaseService (db : DB) : DB :=
  with_submits (reap <$> submits db) db.

(** [CreateUser]; [token] is the fresh [uuid.New().String()]. *)
Definition CreateUser (token : string) (userID : string) (db : DB)
    : User.t * DB :=
  let user := User.mk userID token ∅ ∅ ∅ 0%Qc in
  (user, with_users (save_user user (users db)) db).

(** [GetUserByID]: the row, created when it does not exist yet. *)
Definition GetUserByID (token : string) (userID : string) (db : DB)
    : User.t * DB :=
  match users db !! userID with
  | Some user => (user, db)
  | None => CreateUser token userID db
  end.

(** [UpdateUser]. *)
Definition UpdateUser (user : User.t) (db : DB) : DB :=
  with_users (save_user (User.CalculateTotalScore user) (users db)) db.

(** [submit.Status == "completed" && submit.JudgeResult.Success]. *)
Definition completed_ok (s : SubmitCtx.t) : bool :=
  bool_decide (SubmitCtx.Status s = "completed")
  && JudgeResult.Success (SubmitCtx.JudgeResult s).

(** [newScore := submit.JudgeResult.Score * problem.Weight]. *)
Definition weighted (s : SubmitCtx.t) (problem : Problem.t) : float64 :=
  (JudgeResult.Score (SubmitCtx.JudgeResult s) * Problem.Weight problem)%Qc.

(** The inner [if user.BestScores[submit.Problem] < newScore { ... }] shared
    by [UpdateUserSubmitResult] and [DoFullUserScan]. *)
Definition improve (s : SubmitCtx.t) (problem : Problem.t) (u : User.t)
    : User.t :=
  let newScore := weighted s problem in
  if f64_lt (lookup0 (User.BestScores u) (SubmitCtx.Problem s)) newScore
  then User.set_best (SubmitCtx.Problem s) newScore (SubmitCtx.ID s)
         (SubmitCtx.SubmitTime s) u
  else u.

(** [UpdateUserSubmitResult]: the incremental update. *)
Definition UpdateUserSubmitResult (token : string) (userID : string)
    (submit : SubmitCtx.t) (problem : Problem.t) (db : DB) : DB :=
  let '(user, db) := GetUserByID token userID db in
  let user :=
    if completed_ok submit then improve submit problem user else user in
  UpdateUser user db.

(** [DoFullUserScan], the full rescan.  First the statement
    [if s.Status == "completed" && s.JudgeResult.Success { ... }] of its
    loop over the submissions. *)
Definition scan_user (problems : gmap string Problem.t) (s : SubmitCtx.t)
    (u : User.t) : User.t :=
  if completed_ok s then
    match problems !! SubmitCtx.Problem s with
    | Some problem => improve s problem u
    | None => u
    end
  else u.

(** One round of [for _, s := range submits]: [u, ok := userMap[s.User]],
    the statement above, [userMap[s.User] = u].  [None] is the [log.Fatal]
    that ends the process when a submission names a user without a row. *)
Definition scan_submit (problems : gmap string Problem.t)
    (userMap : option (gmap string User.t)) (s : SubmitCtx.t)
    : option (gmap string User.t) :=
  match userMap with
  | None => None
  | Some userMap =>
      match userMap !! SubmitCtx.User s with
      | None => None
      | Some u => Some (<[SubmitCtx.User s := scan_user problems s u]> userMap)
      end
  end.

(** [ds.db.Find(&users)] followed by
    [for _, user := range users { userMap[user.ID] = user }]. *)
Definition load_userMap (us : gmap string User.t) : gmap string User.t :=
  map_fold (λ _ user userMap, <[User.ID user := user]> userMap) ∅ us.

(** [for _, u := range userMap { u.CalculateTotalScore(); ds.db.Save(&u) }]. *)
Definition save_all (userMap us : gmap string User.t) : gmap string User.t :=
  map_fold (λ _ u us, save_user (User.CalculateTotalScore u) us) us userMap.

Definition DoFullUserScan (problems : gmap string Problem.t) (db : DB)
    : option DB :=
  let submits := submits db in
  let userMap := load_userMap (users db) in
  match foldl (scan_submit problems) (Some userMap) submits with
  | None => None
  | Some userMap => Some (with_users (save_all userMap (users db)) db)
  end.

(** [GetSubmitByID]: [Where("id = ?", submitID).First(&submit)]. *)
Definition GetSubmitByID (submitID : string) (db : DB) : option SubmitCtx.t :=
  List.find (λ s, bool_decide (SubmitCtx.ID s = submitID)) (submits db).

(** [UpdateSubmit] at time [now]. *)
Definition UpdateSubmit (now : Z) (submit : SubmitCtx.t) (db : DB) : DB :=
  with_submits (save_submit (SubmitCtx.with_LastUpdate now submit) (submits db))
    db.

(** [RecalculateUserBestScoresWithProblems], the targeted rescan.  First
    the body of its loop over the user's completed submissions. *)
Definition recalc_submit (problems : gmap string Problem.t) (user : User.t)
    (submit : SubmitCtx.t) : User.t :=
  if JudgeResult.Success (SubmitCtx.JudgeResult submit) then
    let problemID := SubmitCtx.Problem submit in
    match problems !! problemID with
    | None => user
    | Some problem =>
        let weightedScore := weighted submit problem in
        match User.BestScores user !! problemID with
        | Some currentBest =>
            if f64_lt currentBest weightedScore
            then User.set_best problemID weightedScore (SubmitCtx.ID submit)
                   (SubmitCtx.SubmitTime submit) user
            else user
        | None =>
            User.set_best problemID weightedScore (SubmitCtx.ID submit)
              (SubmitCtx.SubmitTime submit) user
        end
    end
  else user.

(** [Where("user = ? AND status = ?", userID, "completed").Find(&submits)]. *)
Definition completed_of (userID : string) (rows : list SubmitCtx.t)
    : list SubmitCtx.t :=
  List.filter
    (λ s, bool_decide (SubmitCtx.User s = userID)
          && bool_decide (SubmitCtx.Status s = "completed")) rows.

Definition RecalculateUserBestScoresWithProblems (token : string)
    (userID : string) (problems : gmap string Problem.t) (db : DB) : DB :=
  let '(user, db) := GetUserByID token userID db in
  let user := User.reset_best user in
  let submits := completed_of userID (submits db) in
  let user := foldl (recalc_submit problems) user submits in
  let user := User.CalculateTotalScore user in
  UpdateUser user db.



(** ** types/types.go: [Userface] *)

(** Go's [io.Writer]: [Write(p)] returns the number of bytes written and an
    error ([Some msg]) or [nil] ([None]); the writer may change state. *)
Class Writer (W : Type) := Write : W → list Byte.byte → W * (Z * option string).

Definition len (p : list Byte.byte) : Z := Z.of_nat (length p).

(** [*bytes.Buffer]: [Write] appends and never fails. *)
Definition Buffer : Type := list Byte.byte.

Definition Buffer_Write (b : Buffer) (p : list Byte.byte)
    : Buffer * (Z * option string) :=
  ((b ++ p)%list, (len p, None)).

Definition ErrShortWrite : string := "short write".

(** [io.MultiWriter(a, b).Write]: the writers in turn, stopping at the first
    error or short write. *)
Definition MultiWriter_Write {A B : Type}
    (wa : A → list Byte.byte → A * (Z * option string))
    (wb : B → list Byte.byte → B * (Z * option string))
    (t : A * B) (p : list Byte.byte) : (A * B) * (Z * option string) :=
  let '(a, (n, err)) := wa (fst t) p in
  match err with
  | Some e => ((a, snd t), (n, Some e))
  | None =>
      if bool_decide (n ≠ len p) then ((a, snd t), (n, Some ErrShortWrite))
      else
        let '(b, (n, err)) := wb (snd t) p in
        match err with
        | Some e => ((a, b), (n, Some e))
        | None =>
            if bool_decide (n ≠ len p) then ((a, b), (n, Some ErrShortWrite))
            else ((a, b), (len p, None))
        end
  end.

(** [type Userface struct { *bytes.Buffer; io.Writer }]; the live sink
    [Writer] may be nil, the buffer is the [bytes.NewBuffer(nil)] of every
    [Userface] the code builds. *)
Module Userface.
Record t (W : Type) := mk {
  Buffer_ : Buffer;
  Writer_ : option W
}.
Arguments mk {W} _ _.
Arguments Buffer_ {W} _.
Arguments Writer_ {W} _.
End Userface.

(** [func (f Userface) Write(p []byte) (n int, err error)]. *)
Definition Userface_Write {W : Type} `{Writer W} (f : Userface.t W)
    (p : list Byte.byte) : Userface.t W * (Z * option string) :=
  match Userface.Writer_ f with
  | Some w =>
      let '((b, w), _) :=
        MultiWriter_Write Buffer_Write Write (Userface.Buffer_ f, w) p in
      (Userface.mk b (Some w), (len p, None))
  | None =>
      let '(b, _) := Buffer_Write (Userface.Buffer_ f) p in
      (Userface.mk b None, (len p, None))
  end.

(** A [Userface] is itself an [io.Writer]: [handleSubmit] makes the session's
    Userface the live sink of the submission's Userface. *)
#[export] Instance Userface_Writer {W : Type} `{Writer W}
    : Writer (Userface.t W) :=
  Userface_Write.

(** A sink whose every write fails after taking [k] bytes. *)
Inductive BrokenSink := broken (k : Z).

#[export] Instance BrokenSink_Writer : Writer BrokenSink :=
  λ w p, match w with broken k => (w, (k, Some "broken pipe")) end.

(** ** Go library functions used by the evaluator *)

(** [strconv.Itoa]. *)
Definition Itoa (i : Z) : string := pretty i.

Definition hex_digit (n : N) : ascii :=
  default "0"%char (String.get (N.to_nat n) "0123456789abcdef").

Definition backslash : ascii := "092"%char.
Definition dquote : ascii := "034"%char.

(** [strconv.Quote], byte by byte.  A byte below 0x80 is escaped as Go
    escapes the rune; a byte from 0x80 on is copied, as Go copies the bytes
    of a printable rune of valid UTF-8 (the [\x], [\u] and [\U] escapes of
    invalid UTF-8 and of unprintable runes beyond ASCII are not modelled). *)
Definition quote_byte (c : ascii) : string :=
  let n := N_of_ascii c in
  if bool_decide (c = dquote) || bool_decide (c = backslash)
  then String backslash (String c "")
  else if bool_decide (32 ≤ n)%N && bool_decide (n < 127)%N then String c ""
  else if bool_decide (128 ≤ n)%N then String c ""
  else if bool_decide (n = 7)%N then String backslash "a"
  else if bool_decide (n = 8)%N then String backslash "b"
  else if bool_decide (n = 12)%N then String backslash "f"
  else if bool_decide (n = 10)%N then String backslash "n"
  else if bool_decide (n = 13)%N then String backslash "r"
  else if bool_decide (n = 9)%N then String backslash "t"
  else if bool_decide (n = 11)%N then String backslash "v"
  else String backslash
         (String "x" (String (hex_digit (n / 16)) (String (hex_digit (n mod 16)) ""))).

Fixpoint quote_bytes (s : string) : string :=
  match s with
  | EmptyString => ""
  | String c s' => quote_byte c ++ quote_bytes s'
  end.

Definition Quote (s : string) : string :=
  String dquote (quote_bytes s ++ String dquote "").

(** ** package judge: the evaluator *)

(** The fields of [types.Config] the evaluator reads. *)
Module Config.
Record t := mk {
  SubmitGid : Z;
  SubmitUid : Z
}.
End Config.

(** One call of the [filepath.WalkDir] callback: the walked path, whether
    the entry is a directory, and whether the walk passes an error. *)
Record WalkVisit := mkVisit {
  visit_path  : string;
  visit_IsDir : bool;
  visit_err   : bool
}.

(** The arguments of [DockerInterface.RunImage]. *)
Record RunImageArgs := mkRunImageArgs {
  ri_name            : string;
  ri_user            : string;
  ri_hostname        : string;
  ri_image           : string;
  ri_workdir         : string;
  ri_mounts          : list Mount.t;
  ri_mask            : bool;
  ri_ReadonlyRootfs  : bool;
  ri_networkdisabled : bool;
  ri_timeout         : Z;
  ri_networkhosted   : bool;
  ri_env             : list string
}.

(** What a run of [RunJudge] does to its surroundings, in order.  The
    submit entry and the loop indices are recorded with the calls they
    belong to. *)
Inductive Event :=
  | EvUpdateSubmit (c : SubmitCtx.t)
  | EvCopyFile (entry : Submit.t) (submit_path : string) (hash : option string)
  | EvWalkDirError (entry : Submit.t) (path : string)
  | EvRunImage (idx : nat) (args : RunImageArgs) (ok : bool) (cid : string)
  | EvExecContainer (idx sidx : nat) (cid cmd : string) (ec : Z) (err : bool)
  | EvGetContainerLogs (cid : string) (ok : bool)
  | EvCleanContainer (cid : string)
  | EvClose.

(** The Go library functions taken as given, and the answers of the outside
    world.  An answer depends on the number of the interaction, so a call
    repeated later may answer differently.  A [bool] answer is [true] when
    the call returns no error, an [option] answer is [None] on error. *)
Record World := mkWorld {
  path_Join       : string → string → string;
  path_Dir        : string → string;
  filepath_IsAbs  : string → bool;
  filepath_Rel    : string → string → string;
  md5_hex         : string → string;
  json_Unmarshal  : string → JudgeResult.t → JudgeResult.t * bool;
  clock           : nat → Z;
  os_Mkdir        : nat → string → bool;
  os_MkdirAll     : nat → string → bool;
  os_Chown        : nat → string → bool;
  os_Chmod        : nat → string → bool;
  os_Open         : nat → string → option string;
  os_Create       : nat → string → bool;
  io_Copy         : nat → string → string → bool;
  file_Sync       : nat → string → bool;
  filepath_WalkDir : nat → string → list WalkVisit;
  os_ReadFile     : nat → string → option string;
  docker_RunImage : nat → RunImageArgs → bool * string;
  docker_ExecContainer :
    nat → string → string → Z → bool → list string → bool → Z * string * bool;
  docker_GetContainerLogs : nat → string → option string
}.

(** The state of a run: the submission context behind the pointer [ctx],
    the events so far, the number of interactions so far, and the container
    ids whose [CleanContainer] is deferred (last registered first). *)
Record JState := mkJState {
  ctx      : SubmitCtx.t;
  trace    : list Event;
  ticks    : nat;
  deferred : list string
}.

(** A statement either falls through with a value or executes [return]. *)
Inductive flow (A : Type) :=
  | Next (a : A)
  | Return_.
Arguments Next {A} a.
Arguments Return_ {A}.

Definition Judge (A : Type) : Type := JState → flow A * JState.

#[export] Instance Judge_ret : MRet Judge := λ A a st, (Next a, st).

Definition bind {A B : Type} (m : Judge A) (k : A → Judge B) : Judge B := λ st,
  match m st with
  | (Next a, st') => k a st'
  | (Return_, st') => (Return_, st')
  end.

#[export] Instance Judge_bind : MBind Judge := λ A B k m, bind m k.

Notation "'let!' x ':=' m 'in' k" := (bind m (λ x, k))
  (at level 10, x name, m at level 200, k at level 200,
   format "'let!'  x  ':='  m  'in' '//' k").

Definition return_ {A : Type} : Judge A := λ st, (Return_, st).

Definition get_ctx : Judge SubmitCtx.t := λ st, (Next (ctx st), st).

Definition modify_ctx (f : SubmitCtx.t → SubmitCtx.t) : Judge unit := λ st,
  (Next (), mkJState (f (ctx st)) (trace st) (ticks st) (deferred st)).

Definition emit (e : Event) : Judge unit := λ st,
  (Next (), mkJState (ctx st) (trace st ++ [e]) (ticks st) (deferred st)).

Definition tick : Judge nat := λ st,
  (Next (ticks st), mkJState (ctx st) (trace st) (S (ticks st)) (deferred st)).

Definition defer (cid : string) : Judge unit := λ st,
  (Next (), mkJState (ctx st) (trace st) (ticks st) (cid :: deferred st)).

(** [for i, x := range l { s = body(i, x, s) }], from index [i]. *)
Fixpoint range_loop {A St : Type} (body : nat → A → St → Judge St) (i : nat)
    (l : list A) (s : St) : Judge St :=
  match l with
  | [] => mret s
  | x :: l' => let! s' := body i x s in range_loop body (S i) l' s'
  end.

Section Evaluator.
Variable w : World.
Variable cfg : Config.t.

(** A call to the outside whose error the code discards. *)
Definition discard_call (call : nat → bool) : Judge unit :=
  let! n := tick in
  let _err := call n in
  mret ().

(** [ctx.SetStatus(status)] and [ctx.SetMsg(msg)], reading the clock. *)
Definition SetStatus (status : string) : Judge unit :=
  let! n := tick in modify_ctx (SubmitCtx.SetStatus (clock w n) status).

Definition SetMsg (msg : string) : Judge unit :=
  let! n := tick in modify_ctx (SubmitCtx.SetMsg (clock w n) msg).

(** [e.dbService.UpdateSubmit(ctx)]: stamps [LastUpdate] and saves. *)
Definition persist : Judge unit :=
  let! n := tick in
  modify_ctx (SubmitCtx.with_LastUpdate (clock w n));;
  let! c := get_ctx in
  emit (EvUpdateSubmit c).

(** [ctx.SetStatus("failed").SetMsg(msg); UpdateSubmit(ctx); return]. *)
Definition fail {A : Type} (msg : string) : Judge A :=
  SetStatus "failed";; SetMsg msg;; persist;; return_.

(** [copyFile]: the hex MD5 of the copied bytes, or [None] for an error of
    [os.Open], [os.Create], [io.Copy] or [Sync]. *)
Definition copyFile (src dst : string) : Judge (option string) :=
  let! n := tick in
  match os_Open w n src with
  | None => mret None
  | Some content =>
      let! n := tick in
      if negb (os_Create w n dst) then mret None
      else
        let! n := tick in
        if negb (io_Copy w n src dst) then mret None
        else
          let! n := tick in
          if negb (file_Sync w n dst) then mret None
          else mret (Some (md5_hex w content))
  end.

(** [submitFile]; the result is [true] when it returns an error. *)
Definition submitFile (entry : Submit.t) (submits_dir submit_path : string)
    : Judge bool :=
  let! c := get_ctx in
  let src_submit_path := path_Join w (SubmitCtx.SubmitDir c) submit_path in
  let dst_submit_path := path_Join w submits_dir submit_path in
  discard_call (λ n, os_MkdirAll w n (path_Dir w dst_submit_path));;
  discard_call (λ n, os_Chown w n (path_Dir w dst_submit_path));;
  let! r := copyFile src_submit_path dst_submit_path in
  match r with
  | None => emit (EvCopyFile entry submit_path None);; mret true
  | Some hash =>
      discard_call (λ n, os_Chown w n dst_submit_path);;
      discard_call (λ n, os_Chmod w n dst_submit_path);;
      modify_ctx (λ c, SubmitCtx.with_SubmitsHashes
        (SubmitCtx.SubmitsHashes c ++ [SubmitHash.mk submit_path hash]) c);;
      emit (EvCopyFile entry submit_path (Some hash));;
      mret false
  end.

(** [filepath.WalkDir(dir_path, callback)] over the visits the walk makes,
    up to the first error the callback returns. *)
Fixpoint walk (entry : Submit.t) (submits_dir dir_path : string)
    (visits : list WalkVisit) : Judge bool :=
  match visits with
  | [] => mret false
  | v :: visits' =>
      if visit_err v then
        emit (EvWalkDirError entry (visit_path v));; mret true
      else if negb (visit_IsDir v) then
        let path :=
          if filepath_IsAbs w (visit_path v)
          then filepath_Rel w dir_path (visit_path v)
          else visit_path v in
        let! err := submitFile entry submits_dir
                (Submit.Path entry ++ "/" ++ path) in
        if err then mret true else walk entry submits_dir dir_path visits'
      else walk entry submits_dir dir_path visits'
  end.

(** The body of [for _, submit := range problem.Submits]. *)
Definition stage (submits_dir : string) (submit : Submit.t) : Judge unit :=
  if negb (Submit.IsDir submit) then
    let! err := submitFile submit submits_dir (Submit.Path submit) in
    if err then
      fail ("failed to copy submit file " ++ Quote (Submit.Path submit))
    else mret ()
  else
    let! c := get_ctx in
    let dir_path := SubmitCtx.SubmitDir c ++ "/" ++ Submit.Path submit in
    let! n := tick in
    let! err := walk submit submits_dir dir_path (filepath_WalkDir w n dir_path) in
    if err then
      fail ("failed to copy submit directory " ++ Quote (Submit.Path submit))
    else mret ().

(** The six [os.Mkdir]/[os.Chown] calls, each jumping to
    [workdir_creation_failed] on error; [true] when all succeed. *)
Fixpoint all_ok (calls : list (nat → bool)) : Judge bool :=
  match calls with
  | [] => mret true
  | call :: calls' =>
      let! n := tick in
      if call n then all_ok calls' else mret false
  end.

(** The body of [for sidx, step := range workflow.Steps]. *)
Definition run_step (idx : nat) (workflow : Workflow.t) (cid : string)
    (envs : list string) (sidx : nat) (step : string)
    (steps : list WorkflowStepResult.t) : Judge (list WorkflowStepResult.t) :=
  SetStatus ("run_workflow-" ++ Itoa (Z.of_nat idx) ++ "_"
             ++ Itoa (Z.of_nat sidx));;
  persist;;
  let ok := bool_decide ((Z.of_nat sidx + 1)%Z ∈ Workflow.Show workflow) in
  let priv :=
    bool_decide ((Z.of_nat sidx + 1)%Z ∈ Workflow.PrivilegedSteps workflow) in
  let! n := tick in
  let '(ec, logs, err) :=
    docker_ExecContainer w n cid step (Workflow.Timeout workflow) ok envs
      priv in
  emit (EvExecContainer idx sidx cid step ec err);;
  if bool_decide (ec ≠ 0%Z) || err then
    fail ("failed to run judge " ++ Itoa (Z.of_nat idx + 1)%Z ++ " step "
          ++ Itoa (Z.of_nat sidx + 1)%Z)
  else
    let steps := <[sidx := WorkflowStepResult.mk logs ec]> steps in
    persist;;
    mret steps.

(** The body of [for idx, workflow := range problem.Workflow]. *)
Definition run_workflow (submits_dir workflow_dir rsubmits_dir
    rworkflow_dir : string) (idx : nat) (workflow : Workflow.t)
    : Judge unit :=
  let! c := get_ctx in
  let _mount :=
    ([Mount.mk "bind" submits_dir "/submits" true;
      Mount.mk "bind" workflow_dir "/work" false]
     ++ Workflow.Mounts workflow)%list in
  let envs :=
    ["SOJ_SUBMITS_DIR=/submits";
     "SOJ_WORK_DIR=/work";
     "SOJ_REAL_WORKDIR=" ++ rworkflow_dir;
     "SOJ_REAL_SUBMITDIR=" ++ rsubmits_dir;
     "SOJ_PROBLEM=" ++ SubmitCtx.Problem c;
     "SOJ_SUBMIT=" ++ SubmitCtx.ID c;
     "SOJ_WORK_UID=" ++ Itoa (Config.SubmitUid cfg);
     "SOJ_WORK_GID=" ++ Itoa (Config.SubmitGid cfg)] in
  SetStatus ("run_workflow-" ++ Itoa (Z.of_nat idx));;
  persist;;
  let usr :=
    if Workflow.Root workflow then "0" else Itoa (Config.SubmitUid cfg) in
  let args :=
    mkRunImageArgs
      ("soj-judge-" ++ SubmitCtx.ID c ++ "-" ++ Itoa (Z.of_nat idx + 1)%Z)
      usr "soj-judgement" (Workflow.Image workflow) "/work" _mount false
      false (Workflow.DisableNetwork workflow) (Workflow.Timeout workflow)
      (Workflow.NetworkHostMode workflow) envs in
  let! n := tick in
  let '(ok, cid) := docker_RunImage w n args in
  emit (EvRunImage idx args ok cid);;
  if negb ok then fail "failed to run judge container"
  else
    defer cid;;
    let steps :=
      replicate (length (Workflow.Steps workflow)) WorkflowStepResult.zero in
    let! steps := range_loop (run_step idx workflow cid envs) 0
              (Workflow.Steps workflow) steps in
    let! n := tick in
    match docker_GetContainerLogs w n cid with
    | None =>
        emit (EvGetContainerLogs cid false);;
        fail "failed to get judge logs"
    | Some logs =>
        emit (EvGetContainerLogs cid true);;
        modify_ctx (λ c, SubmitCtx.with_WorkflowResults
          (SubmitCtx.WorkflowResults c
           ++ [WorkflowResult.mk true logs 0 steps]) c)
    end.

(** [RunJudge] from its first statement to its last or to a [return]. *)
Definition RunJudge_body (problem : Problem.t) : Judge unit :=
  SetStatus "prep_dirs";;
  persist;;
  let! c := get_ctx in
  let submits_dir := path_Join w (SubmitCtx.Workdir c) "submits" in
  let workflow_dir := path_Join w (SubmitCtx.Workdir c) "work" in
  let rsubmits_dir := path_Join w (SubmitCtx.RealWorkdir c) "submits" in
  let rworkflow_dir := path_Join w (SubmitCtx.RealWorkdir c) "work" in
  let! created := all_ok
    [(λ n, os_Mkdir w n (SubmitCtx.Workdir c));
     (λ n, os_Mkdir w n submits_dir);
     (λ n, os_Mkdir w n workflow_dir);
     (λ n, os_Chown w n (SubmitCtx.Workdir c));
     (λ n, os_Chown w n submits_dir);
     (λ n, os_Chown w n workflow_dir)] in
  if negb created then fail "failed to create submit workdir"
  else
    SetStatus "prep_files";;
    persist;;
    range_loop (λ _ submit _, stage submits_dir submit) 0
      (Problem.Submits problem) ();;
    SetStatus "run_workflow";;
    persist;;
    range_loop
      (λ idx workflow _,
         run_workflow submits_dir workflow_dir rsubmits_dir rworkflow_dir
           idx workflow)
      0 (Problem.Workflow problem) ();;
    SetStatus "collect_result";;
    persist;;
    let result_file := workflow_dir ++ "/result.json" in
    let! n := tick in
    match os_ReadFile w n result_file with
    | None => fail "failed to read result file"
    | Some _result =>
        let! c := get_ctx in
        let '(jr, parsed) :=
          json_Unmarshal w _result (SubmitCtx.JudgeResult c) in
        modify_ctx (SubmitCtx.with_JudgeResult jr);;
        if negb parsed then fail "failed to parse result file"
        else
          SetStatus "completed";;
          SetMsg "judge successfully finished";;
          persist
    end.

(** The deferred calls, run when [RunJudge] returns: the
    [CleanContainer] of every container started, last registered first,
    then the function deferred first, which closes [ctx.Running] and saves
    the context. *)
Definition run_deferred : Judge unit :=
  λ st, (Next (),
         mkJState (ctx st) (trace st ++ (EvCleanContainer <$> deferred st))
           (ticks st) []).

Definition start (c : SubmitCtx.t) : JState := mkJState c [] 0 [].

Definition RunJudge (c : SubmitCtx.t) (problem : Problem.t) : JState :=
  let '(_, st) := RunJudge_body problem (start c) in
  let '(_, st) := (run_deferred;; emit EvClose;; persist) st in
  st.
End Evaluator.

(** ** main.go: the context [handleSubmit] hands to [RunJudge] *)

Definition new_SubmitCtx (path_join : string → string → string)
    (SubmitsDir SubmitWorkDir RealSubmitWorkDir : string) (user pid : string)
    (subtime : Z) : SubmitCtx.t :=
  let id := Itoa subtime in
  SubmitCtx.mk id user pid subtime 0 "init" ""
    (path_join (path_join SubmitsDir user) pid) []
    (path_join SubmitWorkDir id) [] JudgeResult.zero
    (path_join RealSubmitWorkDir id).

(** ** The aggregator's invariant and its saving operations *)

(** [total_score = Σ best_scores]. *)
Definition total_ok (u : User.t) : Prop :=
  User.TotalScore u = User.sum_scores (User.BestScores u).

(** The operations of the store that save a [User]. *)
Inductive saves_user (problems : gmap string Problem.t) : DB → DB → Prop :=
  | saves_create token userID db :
      saves_user problems db (CreateUser token userID db).2
  | saves_incremental token userID submit problem db :
      saves_user problems db
        (UpdateUserSubmitResult token userID submit problem db)
  | saves_full_rescan db db' :
      DoFullUserScan problems db = Some db' →
      saves_user problems db db'
  | saves_targeted_rescan token userID db :
      saves_user problems db
        (RecalculateUserBestScoresWithProblems token userID problems db).

(** ** Sample data *)

Definition f64 (n : Z) : float64 := Q2Qc (inject_Z n).

Definition hello : Problem.t := Problem.mk 1 "hello" "" (f64 2) [] [].

Definition problems1 : gmap string Problem.t := {["hello" := hello]}.

Definition judged (id user : string) (time : Z) (success : bool)
    (score : float64) : SubmitCtx.t :=
  SubmitCtx.mk id user "hello" time time "completed"
    "judge successfully finished" "" [] "" []
    (JudgeResult.mk success score "ok" 0 0) "".

Definition alice0 : User.t := User.mk "alice" "token-a" ∅ ∅ ∅ 0%Qc.

Definition store (rows : list SubmitCtx.t) : DB :=
  mkDB rows {["alice" := alice0]}.

(** ** Notions used to state the properties of the rescans *)

(** The submission [s] cannot raise a best score of [u]. *)
Definition settled (problems : gmap string Problem.t) (u : User.t)
    (s : SubmitCtx.t) : Prop :=
  completed_ok s = true →
  ∀ problem, problems !! SubmitCtx.Problem s = Some problem →
    (weighted s problem <= lookup0 (User.BestScores u) (SubmitCtx.Problem s))%Qc.

Definition all_settled (problems : gmap string Problem.t)
    (m : gmap string User.t) (ss : list SubmitCtx.t) : Prop :=
  ∀ s u, s ∈ ss → m !! SubmitCtx.User s = Some u → settled problems u s.

(** [u'] is [u] with best scores that are at least as high. *)
Definition raised (u u' : User.t) : Prop :=
  User.ID u' = User.ID u ∧
  ∀ p, (lookup0 (User.BestScores u) p <= lookup0 (User.BestScores u') p)%Qc.

(** [m'] has the rows of [m], each with its best scores raised. *)
Definition raised_map (m m' : gmap string User.t) : Prop :=
  ∀ k, match m !! k, m' !! k with
       | Some u, Some u' => raised u u'
       | None, None => True
       | _, _ => False
       end.


Definition terminal_statuses : list string := ["completed"; "failed"; "dead"].

(** ** Notions used to state the properties of [RunJudge] *)

(** [m], run from [st], falls through into [Q] or returns into [R]. *)
Definition wp {A : Type} (m : Judge A) (Q : A → JState → Prop)
    (R : JState → Prop) (st : JState) : Prop :=
  match m st with
  | (Next a, st') => Q a st'
  | (Return_, st') => R st'
  end.

(** A step execution that returned a non-zero exit code or an error. *)
Definition failed_exec (e : Event) : bool :=
  match e with
  | EvExecContainer _ _ _ _ ec err => bool_decide (ec ≠ 0%Z) || err
  | _ => false
  end.

(** A staging error: an error of [copyFile], or an error passed to the
    callback of the directory walk. *)
Definition failed_staging (e : Event) : bool :=
  match e with
  | EvCopyFile _ _ None => true
  | EvWalkDirError _ _ => true
  | _ => false
  end.

Definition fatal (e : Event) : bool := failed_exec e || failed_staging e.

(** The events of an aborted pipeline after its fatal event: saves of the
    context, container cleanups and the closing of [ctx.Running]. *)
Definition winding_up (e : Event) : bool :=
  match e with
  | EvUpdateSubmit _ | EvCleanContainer _ | EvClose => true
  | _ => false
  end.

(** The message the code sets after a fatal event. *)
Definition message_of (e : Event) : string :=
  match e with
  | EvExecContainer idx sidx _ _ _ _ =>
      "failed to run judge " ++ Itoa (Z.of_nat idx + 1)%Z ++ " step "
      ++ Itoa (Z.of_nat sidx + 1)%Z
  | EvCopyFile entry _ _ | EvWalkDirError entry _ =>
      if Submit.IsDir entry
      then "failed to copy submit directory " ++ Quote (Submit.Path entry)
      else "failed to copy submit file " ++ Quote (Submit.Path entry)
  | _ => ""
  end.


(** The hashes recorded by the successful copies of a trace. *)
Definition hash_of (e : Event) : list SubmitHash.t :=
  match e with
  | EvCopyFile _ submit_path (Some hash) => [SubmitHash.mk submit_path hash]
  | _ => []
  end.

Definition hashes_of (tr : list Event) : list SubmitHash.t :=
  tr ≫= hash_of.

(** The container of a failed step is among the deferred cleanups; the
    entry of a staging error is declared by the problem. *)
Definition accounted (problem : Problem.t) (cids : list string) (e : Event)
    : Prop :=
  match e with
  | EvExecContainer _ _ cid _ _ _ => cid ∈ cids
  | EvCopyFile entry _ _ | EvWalkDirError entry _ =>
      entry ∈ Problem.Submits problem
  | _ => True
  end.

(** A workflow result all of whose steps exited with code 0. *)
Definition clean_result (r : WorkflowResult.t) : Prop :=
  Forall (λ step, WorkflowStepResult.ExitCode step = 0%Z)
    (WorkflowResult.Steps r).

(** The pipeline is running: no fatal event so far, the hashes of the
    context are those of the copies made, [k] workflows have delivered
    clean results, and [cids] are the deferred cleanups. *)
Definition Running (c0 : SubmitCtx.t) (k : nat) (cids : list string)
    (st : JState) : Prop :=
  Forall (λ e, fatal e = false) (trace st)
  ∧ SubmitCtx.SubmitsHashes (ctx st)
    = (SubmitCtx.SubmitsHashes c0 ++ hashes_of (trace st))%list
  ∧ deferred st = cids
  ∧ ∃ rs, SubmitCtx.WorkflowResults (ctx st)
          = (SubmitCtx.WorkflowResults c0 ++ rs)%list
          ∧ length rs = k ∧ Forall clean_result rs.

(** The pipeline has returned early: the status is failed; either no fatal
    event occurred, or the trace ends with the one fatal event and the save
    of the context, whose message is the one of that event. *)
Definition Aborted (problem : Problem.t) (c0 : SubmitCtx.t) (st : JState)
    : Prop :=
  SubmitCtx.Status (ctx st) = "failed"
  ∧ SubmitCtx.SubmitsHashes (ctx st)
    = (SubmitCtx.SubmitsHashes c0 ++ hashes_of (trace st))%list
  ∧ (Forall (λ e, fatal e = false) (trace st)
     ∨ ∃ pre e c,
         trace st = (pre ++ [e; EvUpdateSubmit c])%list
         ∧ Forall (λ e, fatal e = false) pre
         ∧ fatal e = true
         ∧ SubmitCtx.Msg (ctx st) = message_of e
         ∧ accounted problem (deferred st) e).

(** The pipeline has reached its last statement. *)
Definition Completed (problem : Problem.t) (c0 : SubmitCtx.t) (st : JState)
    : Prop :=
  SubmitCtx.Status (ctx st) = "completed"
  ∧ ∃ cids, Running c0 (length (Problem.Workflow problem)) cids st.

(** The trace ends with the fatal event [e], the first one of the run; the
    message is still to be set. *)
Definition Faulted (c0 : SubmitCtx.t) (e : Event) (cids : list string)
    (st : JState) : Prop :=
  ∃ pre, trace st = (pre ++ [e])%list
         ∧ Forall (λ e, fatal e = false) pre
         ∧ fatal e = true
         ∧ SubmitCtx.SubmitsHashes (ctx st)
           = (SubmitCtx.SubmitsHashes c0 ++ hashes_of pre)%list
         ∧ deferred st = cids.

(** [e] is a staging error of the submit entry [entry]. *)
Definition staging_error_of (entry : Submit.t) (e : Event) : Prop :=
  (∃ submit_path, e = EvCopyFile entry submit_path None)
  ∨ (∃ path, e = EvWalkDirError entry path).

(** A statement that falls through and changes only the count of
    interactions. *)
Definition only_ticks {A : Type} (m : Judge A) : Prop :=
  ∀ st, ∃ a n, m st = (Next a, mkJState (ctx st) (trace st) n (deferred st)).

(** ** Sample worlds *)

Definition join_slash (a b : string) : string := a ++ "/" ++ b.

(** A world in which every call succeeds, every step exits with 0 and the
    judge reports a successful score of 80. *)
Definition world_ok : World :=
  mkWorld join_slash (λ p, p) (String.prefix "/")
    (λ base p, String.substring (S (String.length base)) (String.length p) p)
    (λ s, "md5:" ++ s)
    (λ _ _, (JudgeResult.mk true (f64 80) "ok" 0 0, true))
    (λ n, Z.of_nat n) (λ _ _, true) (λ _ _, true) (λ _ _, true)
    (λ _ _, true) (λ _ _, Some "print")
    (λ _ _, true) (λ _ _ _, true) (λ _ _, true)
    (λ _ dir, [mkVisit dir true false;
               mkVisit (dir ++ "/util.py") false false])
    (λ _ _, Some "{}") (λ n _, (true, "container-" ++ pretty n))
    (λ _ _ _ _ _ _ _, (0%Z, "log", false)) (λ _ _, Some "logs").

(** [world_ok] with other answers of [ExecContainer], [os.Open], or
    [os.MkdirAll] and [os.Chmod]. *)
Definition with_answers
    (exec : nat → string → string → Z → bool → list string → bool
            → Z * string * bool)
    (open : nat → string → option string)
    (mkdirall chmod : nat → string → bool) : World :=
  mkWorld (path_Join world_ok) (path_Dir world_ok) (filepath_IsAbs world_ok)
    (filepath_Rel world_ok) (md5_hex world_ok) (json_Unmarshal world_ok)
    (clock world_ok) (os_Mkdir world_ok) mkdirall (os_Chown world_ok) chmod
    open (os_Create world_ok) (io_Copy world_ok)
    (file_Sync world_ok) (filepath_WalkDir world_ok) (os_ReadFile world_ok)
    (docker_RunImage world_ok) exec (docker_GetContainerLogs world_ok).

(** Every step exits with code 1. *)
Definition world_step_fails : World :=
  with_answers (λ _ _ _ _ _ _ _, (1%Z, "log", false)) (os_Open world_ok)
    (os_MkdirAll world_ok) (os_Chmod world_ok).



Definition cfg1 : Config.t := Config.mk 1000 1000.

Definition main_py : Submit.t := Submit.mk "main.py" false.

Definition python_workflow : Workflow.t :=
  Workflow.mk "python:3" ["python /submits/main.py > /work/out"; "grade"] 10
    false true [1%Z] [] false [].

Definition hello_py : Problem.t :=
  Problem.mk 1 "hello" "" (f64 2) [main_py; Submit.mk "lib" true]
    [python_workflow].

Definition ctx1 : SubmitCtx.t :=
  new_SubmitCtx join_slash "/submits" "/work" "/realwork" "alice" "hello" 1700.

(** ** Further notions for the runs of [RunJudge] *)

(** The containers a trace starts and the containers it cleans, in order. *)
Definition started (e : Event) : list string :=
  match e with
  | EvRunImage _ _ true cid => [cid]
  | _ => []
  end.

Definition started_of (tr : list Event) : list string := tr ≫= started.

Definition cleaned (e : Event) : list string :=
  match e with
  | EvCleanContainer cid => [cid]
  | _ => []
  end.

Definition cleaned_of (tr : list Event) : list string := tr ≫= cleaned.

(** The events of the body of [RunJudge]: all but those of the deferred
    calls. *)
Definition body_event (e : Event) : bool :=
  match e with
  | EvCleanContainer _ | EvClose => false
  | _ => true
  end.

(** A statement that only appends body events and defers the cleanup of
    exactly the containers it starts, last started first. *)
Definition tidy {A : Type} (m : Judge A) : Prop :=
  ∀ st, ∃ Δ,
    trace (m st).2 = (trace st ++ Δ)%list
    ∧ deferred (m st).2 = (reverse (started_of Δ) ++ deferred st)%list
    ∧ Forall (λ e, body_event e = true) Δ.

(** ** package judge: [ColoredIO] *)

(** [type ColoredIO struct { io.Writer; aurora.Color }]. *)
Module ColoredIO.
Record t (W : Type) := mk {
  Writer_ : W;
  Color   : N
}.
Arguments mk {W} _ _.
Arguments Writer_ {W} _.
Arguments Color {W} _.
End ColoredIO.

(** [func (c *ColoredIO) Write(p []byte) (n int, err error)];
    [Colorize p color] stands for the bytes of
    [aurora.Colorize(string(p), color).String()]. *)
Definition ColoredIO_Write {W : Type} `{Writer W}
    (Colorize : list Byte.byte → N → list Byte.byte)
    (c : ColoredIO.t W) (p : list Byte.byte)
    : ColoredIO.t W * (Z * option string) :=
  let '(w, (_, err)) :=
    Write (ColoredIO.Writer_ c) (Colorize p (ColoredIO.Color c)) in
  (ColoredIO.mk w (ColoredIO.Color c), (len p, err)).

(** ** types/database.go: the remaining store operations *)

(** [IsAdmin]: the loop over [cfg.Admins]. *)
Fixpoint IsAdmin (admins : list string) (userID : string) : bool :=
  match admins with
  | [] => false
  | admin :: admins' =>
      if bool_decide (admin = userID) then true else IsAdmin admins' userID
  end.

(** [GetUserByToken]: [Where("token = ?", token).First(&user)], the row
    with the least primary key among those with the token; [None] is
    [gorm.ErrRecordNotFound]. *)
Definition GetUserByToken (token : string) (db : DB) : option User.t :=
  map_fold
    (λ _ user found,
       if bool_decide (User.Token user = token) then
         match found with
         | Some first =>
             if String.ltb (User.ID user) (User.ID first) then Some user
             else Some first
         | None => Some user
         end
       else found)
    None (users db).

(** The condition [user = ? AND status != "completed" AND status !=
    "failed" AND status != "dead"] of the two queries for a running
    submission. *)
Definition is_running_of (userID : string) (s : SubmitCtx.t) : bool :=
  bool_decide (SubmitCtx.User s = userID)
  && negb (bool_decide (SubmitCtx.Status s = "completed"))
  && negb (bool_decide (SubmitCtx.Status s = "failed"))
  && negb (bool_decide (SubmitCtx.Status s = "dead")).

(** [HasUserRunningSubmit]: [count > 0]. *)
Definition HasUserRunningSubmit (userID : string) (db : DB) : bool :=
  let count := Z.of_nat (length (List.filter (is_running_of userID) (submits db))) in
  bool_decide (0 < count)%Z.

(** [GetUserRunningSubmit]: [Order("id desc").First(&submit)], the matching
    row with the greatest id. *)
Definition later_of (found : option SubmitCtx.t) (s : SubmitCtx.t)
    : option SubmitCtx.t :=
  match found with
  | Some best =>
      if String.ltb (SubmitCtx.ID best) (SubmitCtx.ID s) then Some s
      else Some best
  | None => Some s
  end.

Definition GetUserRunningSubmit (userID : string) (db : DB)
    : option SubmitCtx.t :=
  foldl later_of None (List.filter (is_running_of userID) (submits db)).




(** Every row of the table has its own primary key. *)
Definition unique_ids (rows : list SubmitCtx.t) : Prop :=
  NoDup (SubmitCtx.ID <$> rows).

(** No two users share a token (the unique index on [token]). *)
Definition unique_tokens (us : gmap string User.t) : Prop :=
  ∀ k1 k2 u1 u2,
    us !! k1 = Some u1 → us !! k2 = Some u2 →
    User.Token u1 = User.Token u2 → k1 = k2.

(** ** package judge: the problem manager *)

Module ProblemManager.
Record t := mk {
  problems : gmap string Problem.t;
  pblms    : list string
}.
End ProblemManager.

(** [NewProblemManager]. *)
Definition NewProblemManager : ProblemManager.t := ProblemManager.mk ∅ [].

(** The files the problem manager reads: [os.ReadFile], [os.ReadDir] (the
    names of the entries) and [yaml.Unmarshal] into a [Problem], each [None]
    on error. *)
Record ProblemFiles := mkProblemFiles {
  ReadFile_  : string → option string;
  ReadDir    : string → option (list string);
  yaml_Unmarshal : string → option Problem.t
}.

Definition with_Weight (weight : float64) (p : Problem.t) : Problem.t :=
  Problem.mk (Problem.Version p) (Problem.Id p) (Problem.Text p) weight
    (Problem.Submits p) (Problem.Workflow p).

(** [LoadProblem]; [None] is one of its two panics. *)
Definition LoadProblem (fs : ProblemFiles) (file : string)
    (pm : ProblemManager.t) : option (Problem.t * ProblemManager.t) :=
  match ReadFile_ fs file with
  | None => None
  | Some _f =>
      match yaml_Unmarshal fs _f with
      | None => None
      | Some _p =>
          let _p :=
            if bool_decide (Problem.Weight _p = 0%Qc)
            then with_Weight 1%Qc _p else _p in
          Some (_p,
                ProblemManager.mk
                  (<[Problem.Id _p := _p]> (ProblemManager.problems pm))
                  (ProblemManager.pblms pm ++ [Problem.Id _p]))
      end
  end.

(** The loop of [LoadProblemDir] over the directory entries. *)
Fixpoint load_entries (fs : ProblemFiles) (dir : string) (names : list string)
    (pm : ProblemManager.t) : option ProblemManager.t :=
  match names with
  | [] => Some pm
  | name :: names' =>
      match LoadProblem fs (dir ++ "/" ++ name) pm with
      | None => None
      | Some (_pf, pm) =>
          let pm :=
            ProblemManager.mk
              (<[Problem.Id _pf := _pf]> (ProblemManager.problems pm))
              (ProblemManager.pblms pm) in
          load_entries fs dir names' pm
      end
  end.

(** [LoadProblemDir]; [None] is a panic.  The map it returns is the
    [problems] field of the manager. *)
Definition LoadProblemDir (fs : ProblemFiles) (dir : string)
    (pm : ProblemManager.t) : option ProblemManager.t :=
  match ReadDir fs dir with
  | None => None
  | Some _f => load_entries fs dir _f (ProblemManager.mk ∅ [])
  end.

(** [GetProblem] and [GetProblemList]. *)
Definition GetProblem (pm : ProblemManager.t) (id : string)
    : option Problem.t :=
  ProblemManager.problems pm !! id.

Definition GetProblemList (pm : ProblemManager.t) : list string :=
  ProblemManager.pblms pm.

(** ** package ui: the SSH front end *)

(** Go's [s[:k]]; [None] is the panic for bounds out of range. *)
Definition slice_to (s : string) (k : Z) : option string :=
  if bool_decide (0 ≤ k)%Z && bool_decide (k ≤ Z.of_nat (String.length s))%Z
  then Some (String.substring 0 (Z.to_nat k) s)
  else None.

(** [omitStr]. *)
Definition omitStr (s : string) (n : Z) : option string :=
  if bool_decide (Z.of_nat (String.length s) ≤ n)%Z then Some s
  else
    match slice_to s (n - 3) with
    | Some head => Some (head ++ "...")
    | None => None
    end.

(** The loop of [handleRank] that numbers the users, given in the order
    [GetAllUsersOrderedByScore] returns them: [i] is the index of the next
    user, [cursoc] and [currk] the score and the index of the first user of
    the current group. *)
Fixpoint rank_loop (cursoc : float64) (currk i : nat) (users_ : list User.t)
    : list string :=
  match users_ with
  | [] => []
  | u :: users' =>
      let changed := negb (bool_decide (User.TotalScore u = cursoc)) in
      let currk := if changed then i else currk in
      let cursoc := if changed then User.TotalScore u else cursoc in
      Itoa (Z.of_nat currk + 1)%Z :: rank_loop cursoc currk (S i) users'
  end.

Definition ranks_of (users_ : list User.t) : list string :=
  rank_loop (-1)%Qc 0 0 users_.

(** The number of users with a total score above [score]. *)
Definition above (score : float64) (users_ : list User.t) : nat :=
  length (List.filter (λ u, f64_lt score (User.TotalScore u)) users_).

(** The order [total_score desc]. *)
Definition by_score_desc (users_ : list User.t) : Prop :=
  ∀ i j x y, (i ≤ j)%nat → users_ !! i = Some x → users_ !! j = Some y →
             (User.TotalScore y <= User.TotalScore x)%Qc.

(** ** package ui: the HTTP read API *)

Inductive Response :=
  | Unauthorized (message : string)
  | BadRequest
  | NotFound
  | Forbidden
  | OK_submit (submit : SubmitCtx.t).

(** [AuthMiddleware]: the user id and the admin flag it stores in the
    request context, or the response it aborts with.  [cookie] is the value
    of the cookie [token], [None] when the request has none. *)
Definition AuthMiddleware (admins : list string) (cookie : option string)
    (db : DB) : Response + (string * bool) :=
  match cookie with
  | None => inl (Unauthorized "Token is required")
  | Some token =>
      match GetUserByToken token db with
      | None => inl (Unauthorized "Invalid Token")
      | Some user => inr (User.ID user, IsAdmin admins (User.ID user))
      end
  end.

(** [getSubmitDetail] for the authenticated [user]. *)
Definition getSubmitDetail (user : string) (admin : bool) (id : string)
    (db : DB) : Response :=
  if bool_decide (id = "") then BadRequest
  else
    match GetSubmitByID id db with
    | None => NotFound
    | Some submit =>
        if negb admin && negb (bool_decide (SubmitCtx.User submit = user))
        then Forbidden
        else OK_submit submit
    end.

(** The route [GET /api/v1/status/:id] behind the middleware. *)
Definition status_route (admins : list string) (cookie : option string)
    (id : string) (db : DB) : Response :=
  match AuthMiddleware admins cookie db with
  | inl response => response
  | inr (user, admin) => getSubmitDetail user admin id db
  end.

Definition with_User (v : string) (c : SubmitCtx.t) : SubmitCtx.t :=
  SubmitCtx.mk (SubmitCtx.ID c) v (SubmitCtx.Problem c) (SubmitCtx.SubmitTime c)
    (SubmitCtx.LastUpdate c) (SubmitCtx.Status c) (SubmitCtx.Msg c)
    (SubmitCtx.SubmitDir c) (SubmitCtx.SubmitsHashes c) (SubmitCtx.Workdir c)
    (SubmitCtx.WorkflowResults c) (SubmitCtx.JudgeResult c)
    (SubmitCtx.RealWorkdir c).

(** The loop of [listSubmits] over the fetched page [submits_]. *)
Definition anonymize (user : string) (admin : bool)
    (submits_ : list SubmitCtx.t) : list SubmitCtx.t :=
  if negb admin then
    (λ s, if negb (bool_decide (SubmitCtx.User s = user))
          then with_User "Anonymous" s else s) <$> submits_
  else submits_.

(** ** main.go: [handleSubmit] *)

(** The rows the saves of a run leave in the submissions table. *)
Definition persisted (tr : list Event) (db : DB) : DB :=
  foldl (λ db e, match e with
                 | EvUpdateSubmit c => with_submits (save_submit c (submits db)) db
                 | _ => db
                 end) db tr.

(** The directories of [types.Config] that [handleSubmit] reads. *)
Record SubmitDirs := mkSubmitDirs {
  SubmitsDir        : string;
  SubmitWorkDir     : string;
  RealSubmitWorkDir : string
}.

(** [handleSubmit] for the session of [user] with command [cmds] at time
    [subtime]: what it does to the store.  It goes on as soon as the run
    closes [ctx.Running], while the run still makes its last save; the
    store here is the one after both, the save taken first. *)
Definition handleSubmit (w : World) (cfg : Config.t) (dirs : SubmitDirs)
    (pm : ProblemManager.t) (token user : string) (cmds : list string)
    (subtime : Z) (db : DB) : DB :=
  match cmds with
  | [_; pid] =>
      match GetProblem pm pid with
      | None => db
      | Some pb =>
          let ctx0 :=
            new_SubmitCtx (path_Join w) (SubmitsDir dirs) (SubmitWorkDir dirs)
              (RealSubmitWorkDir dirs) user pid subtime in
          let st := RunJudge w cfg ctx0 pb in
          let db := persisted (trace st) db in
          UpdateUserSubmitResult token user (ctx st) pb db
      end
  | _ => db
  end.

(** The fields of the context that identify the submission. *)
Definition identity (c : SubmitCtx.t)
    : string * string * string * Z * string * string * string :=
  (SubmitCtx.ID c, SubmitCtx.User c, SubmitCtx.Problem c,
   SubmitCtx.SubmitTime c, SubmitCtx.SubmitDir c, SubmitCtx.Workdir c,
   SubmitCtx.RealWorkdir c).

(** An event that saves no submission but one with the identity [ident]. *)
Definition saves_as
    (ident : string * string * string * Z * string * string * string)
    (e : Event) : Prop :=
  match e with
  | EvUpdateSubmit c => identity c = ident
  | _ => True
  end.

(** A statement that only appends events, keeps the identity of the context
    and saves the context under no other identity. *)
Definition steady {A : Type} (m : Judge A) : Prop :=
  ∀ st, ∃ Δ,
    trace (m st).2 = (trace st ++ Δ)%list
    ∧ identity (ctx (m st).2) = identity (ctx st)
    ∧ Forall (saves_as (identity (ctx st))) Δ.

(** ** Sample data for the front ends *)

(** A directory with two problem files for the same id, the first without a
    weight. *)
Definition fs1 : ProblemFiles :=
  mkProblemFiles
    (λ file, if bool_decide (file = "problems/a.yaml") then Some "a"
             else if bool_decide (file = "problems/b.yaml") then Some "b"
             else None)
    (λ dir, if bool_decide (dir = "problems") then Some ["a.yaml"; "b.yaml"]
            else None)
    (λ text, if bool_decide (text = "a")
             then Some (Problem.mk 1 "hello" "" 0%Qc [] [])
             else Some (Problem.mk 1 "hello" "" (f64 2) [] [])).

Definition scored (id : string) (total : float64) : User.t :=
  User.mk id ("token-" ++ id) ∅ ∅ ∅ total.


(** * Properties of the aggregator *)

Lemma f64_lt_true x y : f64_lt x y = true ↔ (x < y)%Qc.
Proof. unfold f64_lt. apply bool_decide_eq_true. Qed.

Lemma f64_lt_false x y : f64_lt x y = false ↔ (y <= x)%Qc.
Proof.
  unfold f64_lt. rewrite bool_decide_eq_false. split.
  - apply Qcnot_lt_le.
  - apply Qcle_not_lt.
Qed.

(** ** The total score *)

Lemma CalculateTotalScore_ok u : total_ok (User.CalculateTotalScore u).
Proof. reflexivity. Qed.


Lemma CalculateTotalScore_ID u :
  User.ID (User.CalculateTotalScore u) = User.ID u.
Proof. reflexivity. Qed.

(** The loop of [CalculateTotalScore] adds up the values of the map. *)
Lemma sum_scores_insert m p x :
  m !! p = None →
  User.sum_scores (<[p := x]> m) = (User.sum_scores m + x)%Qc.
Proof.
  intros Hp. unfold User.sum_scores.
  apply (map_fold_insert_L (λ _ s total, (total + s)%Qc)); [|done].
  intros j1 j2 z1 z2 y _ _ _. ring.
Qed.

Lemma sum_scores_empty : User.sum_scores ∅ = 0%Qc.
Proof. unfold User.sum_scores. apply map_fold_empty. Qed.

(** ** The store *)

Lemma load_userMap_keyed us : users_keyed us → load_userMap us = us.
Proof.
  unfold load_userMap.
  apply (map_fold_weak_ind (λ r m, users_keyed m → r = m)); [done|].
  intros i x m r Hi IH Hk.
  rewrite (Hk i x) by apply lookup_insert_eq.
  f_equal. apply IH. intros k u Hku. apply Hk.
  rewrite lookup_insert_ne; [done|]. intros ->. congruence.
Qed.

Lemma save_all_lookup userMap us k :
  users_keyed userMap →
  save_all userMap us !! k
  = match userMap !! k with
    | Some u => Some (User.CalculateTotalScore u)
    | None => us !! k
    end.
Proof.
  unfold save_all. revert k.
  apply (map_fold_weak_ind (λ r m, ∀ k, users_keyed m →
    r !! k = match m !! k with
             | Some u => Some (User.CalculateTotalScore u)
             | None => us !! k
             end)).
  { intros k _. by rewrite lookup_empty. }
  intros i x m r Hi IH k Hk. unfold save_user.
  assert (User.ID x = i) as Hx by (apply Hk, lookup_insert_eq).
  rewrite CalculateTotalScore_ID, Hx.
  destruct (decide (i = k)) as [->|Hne].
  - by rewrite !lookup_insert_eq.
  - rewrite !lookup_insert_ne by done. apply IH.
    intros k' u Hku. apply Hk. rewrite lookup_insert_ne; [done|].
    intros ->. congruence.
Qed.

Lemma save_all_rows userMap us k u' :
  save_all userMap us !! k = Some u' → total_ok u' ∨ us !! k = Some u'.
Proof.
  unfold save_all. revert k u'.
  apply (map_fold_weak_ind (λ r (m : gmap string User.t), ∀ k u',
    r !! k = Some u' → total_ok u' ∨ us !! k = Some u')).
  { intros k u' H. by right. }
  intros i x m r Hi IH k u'. unfold save_user.
  destruct (decide (User.ID (User.CalculateTotalScore x) = k)) as [->|Hne].
  - rewrite lookup_insert_eq. intros [= <-]. left. apply CalculateTotalScore_ok.
  - rewrite lookup_insert_ne by done. apply IH.
Qed.

(** ** The update rule *)

Lemma lookup0_insert m p x q :
  lookup0 (<[p := x]> m) q = if decide (p = q) then x else lookup0 m q.
Proof.
  unfold lookup0. destruct (decide (p = q)) as [->|Hne].
  - by rewrite lookup_insert_eq.
  - by rewrite lookup_insert_ne.
Qed.

Lemma improve_ID s problem u : User.ID (improve s problem u) = User.ID u.
Proof. unfold improve. by destruct (f64_lt _ _). Qed.

Lemma improve_raised s problem u : raised u (improve s problem u).
Proof.
  split; [apply improve_ID|]. intros p. unfold improve.
  destruct (f64_lt _ _) eqn:Hlt; [|apply Qcle_refl]. simpl.
  rewrite lookup0_insert. destruct (decide _) as [<-|]; [|apply Qcle_refl].
  apply Qclt_le_weak. by apply f64_lt_true.
Qed.

Lemma improve_reached s problem u :
  (weighted s problem
   <= lookup0 (User.BestScores (improve s problem u)) (SubmitCtx.Problem s))%Qc.
Proof.
  unfold improve. destruct (f64_lt _ _) eqn:Hlt; simpl.
  - rewrite lookup0_insert, decide_True by done. apply Qcle_refl.
  - by apply f64_lt_false.
Qed.

Lemma improve_settled s problem u :
  (weighted s problem <= lookup0 (User.BestScores u) (SubmitCtx.Problem s))%Qc →
  improve s problem u = u.
Proof. intros H. unfold improve. apply f64_lt_false in H. by rewrite H. Qed.

Lemma raised_refl u : raised u u.
Proof. split; [done|]. intros p. apply Qcle_refl. Qed.

Lemma raised_trans u1 u2 u3 : raised u1 u2 → raised u2 u3 → raised u1 u3.
Proof.
  intros [H1 H1'] [H2 H2']. split; [congruence|].
  intros p. eapply Qcle_trans; [apply H1'|apply H2'].
Qed.

Lemma scan_user_raised problems s u : raised u (scan_user problems s u).
Proof.
  unfold scan_user. destruct (completed_ok s); [|apply raised_refl].
  destruct (problems !! _); [apply improve_raised|apply raised_refl].
Qed.

Lemma scan_user_reached problems s u : settled problems (scan_user problems s u) s.
Proof.
  intros Hok problem Hp. unfold scan_user. rewrite Hok, Hp.
  apply improve_reached.
Qed.

Lemma scan_user_settled problems s u :
  settled problems u s → scan_user problems s u = u.
Proof.
  intros H. unfold scan_user. destruct (completed_ok s) eqn:Hok; [|done].
  destruct (problems !! _) as [problem|] eqn:Hp; [|done].
  apply improve_settled. by apply H.
Qed.

Lemma settled_raised problems u u' s :
  settled problems u s → raised u u' → settled problems u' s.
Proof.
  intros H [_ Hle] Hok problem Hp.
  eapply Qcle_trans; [by apply H|apply Hle].
Qed.


(** ** The loop of the full rescan *)

Lemma raised_map_refl m : raised_map m m.
Proof. intros k. destruct (m !! k); [apply raised_refl|done]. Qed.

Lemma raised_map_trans m1 m2 m3 :
  raised_map m1 m2 → raised_map m2 m3 → raised_map m1 m3.
Proof.
  intros H1 H2 k. specialize (H1 k). specialize (H2 k).
  destruct (m1 !! k), (m2 !! k), (m3 !! k); try done.
  by eapply raised_trans.
Qed.

Lemma raised_map_keyed m m' : raised_map m m' → users_keyed m → users_keyed m'.
Proof.
  intros H Hk k u' Hu'. specialize (H k). rewrite Hu' in H.
  destruct (m !! k) as [u|] eqn:Hu; [|done].
  destruct H as [-> _]. by apply Hk.
Qed.

Lemma scan_loop_None problems ss : foldl (scan_submit problems) None ss = None.
Proof. by induction ss. Qed.

Lemma scan_submit_raised problems m s m' :
  scan_submit problems (Some m) s = Some m' → raised_map m m'.
Proof.
  simpl. destruct (m !! SubmitCtx.User s) as [u|] eqn:Hu; [|done].
  intros [= <-] k. destruct (decide (SubmitCtx.User s = k)) as [<-|Hne].
  - rewrite Hu, lookup_insert_eq. apply scan_user_raised.
  - rewrite lookup_insert_ne by done.
    destruct (m !! k); [apply raised_refl|done].
Qed.

Lemma scan_loop_spec problems ss m m' :
  foldl (scan_submit problems) (Some m) ss = Some m' →
  raised_map m m' ∧ all_settled problems m' ss
  ∧ ∀ s, s ∈ ss → is_Some (m' !! SubmitCtx.User s).
Proof.
  revert m. induction ss as [|s ss IH]; intros m.
  - intros [= <-]. split; [apply raised_map_refl|].
    split; [intros s u Hs|intros s Hs]; by apply elem_of_nil in Hs.
  - simpl. destruct (m !! SubmitCtx.User s) as [u|] eqn:Hu;
      [|by rewrite scan_loop_None].
    intros Hloop. destruct (IH _ Hloop) as (Hr & Hset & Hdom).
    assert (raised_map m (<[SubmitCtx.User s := scan_user problems s u]> m))
      as Hr1.
    { apply (scan_submit_raised problems m s). simpl. by rewrite Hu. }
    split; [by eapply raised_map_trans|].
    pose proof (Hr (SubmitCtx.User s)) as Hs. rewrite lookup_insert_eq in Hs.
    split.
    + intros t v [->|Ht]%elem_of_cons Hv; [|by eapply Hset].
      rewrite Hv in Hs. eapply settled_raised; [|exact Hs].
      apply scan_user_reached.
    + intros t [->|Ht]%elem_of_cons; [|by apply Hdom].
      destruct (m' !! SubmitCtx.User s); [by eexists|done].
Qed.


(** The full rescan over a keyed users table, in one equation. *)
Lemma DoFullUserScan_keyed problems db db' :
  users_keyed (users db) →
  DoFullUserScan problems db = Some db' →
  ∃ m, foldl (scan_submit problems) (Some (users db)) (submits db) = Some m
       ∧ users_keyed m
       ∧ db' = with_users (User.CalculateTotalScore <$> m) db.
Proof.
  intros Hk. unfold DoFullUserScan. rewrite load_userMap_keyed by done.
  destruct (foldl _ _ _) as [m|] eqn:Hloop; [|done]. intros [= <-].
  destruct (scan_loop_spec _ _ _ _ Hloop) as (Hr & _ & _).
  assert (users_keyed m) as Hkm by (by eapply raised_map_keyed).
  exists m. split; [done|]. split; [done|]. f_equal.
  apply map_eq. intros k. rewrite save_all_lookup, lookup_fmap by done.
  specialize (Hr k). destruct (users db !! k), (m !! k); done.
Qed.

(** ** Rows written by the saving operations *)

Lemma UpdateUser_rows user db k u' :
  users (UpdateUser user db) !! k = Some u' →
  total_ok u' ∨ users db !! k = Some u'.
Proof.
  simpl. unfold save_user.
  destruct (decide (User.ID (User.CalculateTotalScore user) = k)) as [->|Hne].
  - rewrite lookup_insert_eq. intros [= <-]. left. apply CalculateTotalScore_ok.
  - rewrite lookup_insert_ne by done. by right.
Qed.

Lemma GetUserByID_cases token userID db :
  (∃ user, users db !! userID = Some user
           ∧ GetUserByID token userID db = (user, db))
  ∨ (users db !! userID = None
     ∧ GetUserByID token userID db
       = (User.mk userID token ∅ ∅ ∅ 0%Qc,
          with_users (<[userID := User.mk userID token ∅ ∅ ∅ 0%Qc]> (users db))
            db)).
Proof.
  unfold GetUserByID. destruct (users db !! userID) as [user|] eqn:Hu.
  - left. by exists user.
  - right. done.
Qed.

Lemma GetUserByID_ID token userID db user db1 :
  users_keyed (users db) →
  GetUserByID token userID db = (user, db1) → User.ID user = userID.
Proof.
  intros Hk. destruct (GetUserByID_cases token userID db)
    as [(u & Hu & ->)|[_ ->]]; intros [= <- <-]; [|done].
  by apply (Hk userID u).
Qed.

Lemma GetUserByID_rows token userID db user db1 k u' :
  GetUserByID token userID db = (user, db1) →
  users db1 !! k = Some u' →
  total_ok u' ∨ users db !! k = Some u'.
Proof.
  destruct (GetUserByID_cases token userID db)
    as [(u & Hu & ->)|[_ ->]]; intros [= <- <-]; [by right|].
  simpl. destruct (decide (userID = k)) as [->|Hne].
  - rewrite lookup_insert_eq. intros [= <-]. left.
    unfold total_ok. simpl. by rewrite sum_scores_empty.
  - rewrite lookup_insert_ne by done. by right.
Qed.

Lemma total_ok_or_trans (P Q0 Q1 : Prop) : P ∨ Q1 → (Q1 → P ∨ Q0) → P ∨ Q0.
Proof. tauto. Qed.

(** C2. Every [User] row in the store after an operation that saves users
    either has [total_score] equal to the sum of the values of
    [best_scores], or is a row the operation did not write: user creation,
    the incremental update, the full rescan and the targeted rescan all
    recompute the total before they save. *)
Theorem C2_total_score_is_sum problems db db' k u' :
  saves_user problems db db' →
  users db' !! k = Some u' →
  total_ok u' ∨ users db !! k = Some u'.
Proof.
  intros Hsave Hrow. destruct Hsave as
    [token userID db|token userID submit problem db|db db' Hscan
    |token userID db].
  - revert Hrow. simpl. unfold save_user. simpl.
    destruct (decide (userID = k)) as [->|Hne].
    + rewrite lookup_insert_eq. intros [= <-]. left.
      unfold total_ok. simpl. by rewrite sum_scores_empty.
    + rewrite lookup_insert_ne by done. by right.
  - revert Hrow. unfold UpdateUserSubmitResult.
    destruct (GetUserByID token userID db) as [user db1] eqn:Hget.
    intros Hrow. apply UpdateUser_rows in Hrow.
    eapply total_ok_or_trans; [exact Hrow|].
    by eapply GetUserByID_rows.
  - revert Hscan Hrow. unfold DoFullUserScan.
    destruct (foldl _ _ _) as [m|]; [|done]. intros [= <-]. simpl.
    apply save_all_rows.
  - revert Hrow. unfold RecalculateUserBestScoresWithProblems.
    destruct (GetUserByID token userID db) as [user db1] eqn:Hget.
    intros Hrow. apply UpdateUser_rows in Hrow.
    eapply total_ok_or_trans; [exact Hrow|].
    by eapply GetUserByID_rows.
Qed.

Lemma C2_total_score_is_sum_witness :
  let s := judged "1" "alice" 1 true (f64 80) in
  let u := User.mk "alice" "token-a" {["hello" := f64 160]}
             {["hello" := "1"]} {["hello" := 1%Z]} (f64 160) in
  total_ok u ∨ users (store [s]) !! "alice" = Some u.
Proof.
  intros s u.
  apply (C2_total_score_is_sum problems1 (store [s])
           (UpdateUserSubmitResult "token-b" "alice" s hello (store [s]))
           "alice" u).
  - apply saves_incremental.
  - vm_compute. reflexivity.
Defined.


(** ** The update rule of the incremental update and of the full rescan *)

(** The rule as the code has it: the bests change exactly when the score
    read from the map, zero for a missing key, is below the weighted
    score. *)
Lemma improve_rule s problem u :
  improve s problem u
  = if f64_lt (lookup0 (User.BestScores u) (SubmitCtx.Problem s))
         (weighted s problem)
    then User.set_best (SubmitCtx.Problem s) (weighted s problem)
           (SubmitCtx.ID s) (SubmitCtx.SubmitTime s) u
    else u.
Proof. reflexivity. Qed.

(** C1. On a user without an entry for the problem, a completed successful
    submission whose weighted score is negative installs nothing in the
    incremental update and in the full rescan, which read the missing best
    score as zero; the targeted rescan, which tests for the entry, installs
    it. *)
Theorem C1_missing_best_is_read_as_zero :
  let s := judged "1" "alice" 1 true (f64 (-1)) in
  completed_ok s = true
  ∧ weighted s hello = f64 (-2)
  ∧ User.BestSubmits
      <$> users (UpdateUserSubmitResult "token-b" "alice" s hello (store [s]))
          !! "alice"
    = Some ∅
  ∧ User.BestSubmits
      <$> (DoFullUserScan problems1 (store [s]) ≫= λ db, users db !! "alice")
    = Some ∅
  ∧ User.BestSubmits
      <$> users (RecalculateUserBestScoresWithProblems "token-b" "alice"
                   problems1 (store [s])) !! "alice"
    = Some {["hello" := "1"]}.
Proof. repeat split; vm_compute; reflexivity. Qed.



(** The same tie rule in the loop of the full rescan and of the targeted
    rescan. *)
Lemma scan_user_tie problems s1 s2 u :
  SubmitCtx.Problem s2 = SubmitCtx.Problem s1 →
  (∀ problem, weighted s2 problem = weighted s1 problem) →
  completed_ok s1 = true →
  scan_user problems s2 (scan_user problems s1 u) = scan_user problems s1 u.
Proof.
  intros Hp Hw Hok1. apply scan_user_settled. intros Hok2 problem Hprob.
  rewrite Hw, Hp. rewrite Hp in Hprob.
  by apply (scan_user_reached problems s1 u).
Qed.

(** ** C8: the full rescan is idempotent *)




(** The full rescan completes when every submission names a stored user. *)
Lemma DoFullUserScan_completes problems db :
  users_keyed (users db) →
  (∀ s, s ∈ submits db → is_Some (users db !! SubmitCtx.User s)) →
  is_Some (DoFullUserScan problems db).
Proof.
  intros Hk Hdom. unfold DoFullUserScan. rewrite load_userMap_keyed by done.
  assert (∀ ss m, (∀ s, s ∈ ss → is_Some (m !! SubmitCtx.User s)) →
            is_Some (foldl (scan_submit problems) (Some m) ss)) as Hloop.
  { induction ss as [|s ss IH]; intros m Hm; [by eexists|]. simpl.
    destruct (Hm s) as [u Hu]; [apply elem_of_cons; by left|]. rewrite Hu.
    apply IH. intros t Ht.
    destruct (decide (SubmitCtx.User s = SubmitCtx.User t)) as [<-|Hne].
    - rewrite lookup_insert_eq. by eexists.
    - rewrite lookup_insert_ne by done. apply Hm, elem_of_cons. by right. }
  destruct (Hloop (submits db) (users db) Hdom) as [m ->]. by eexists.
Qed.

(** ** C3: the startup reaper *)

Lemma is_terminal_spec status :
  is_terminal status = true ↔ status ∈ terminal_statuses.
Proof.
  unfold is_terminal, terminal_statuses.
  rewrite !orb_true_iff, !bool_decide_eq_true, !elem_of_cons, elem_of_nil.
  tauto.
Qed.

(** C3. Every row of the submissions table after the reaper has a status in
    {completed, failed, dead}: it is the row that was stored at this
    position, unchanged when its status was one of the three and with its
    status rewritten to dead otherwise. *)
Theorem C3_reaper_leaves_terminal db i s :
  submits (NewDatabaseService db) !! i = Some s →
  SubmitCtx.Status s ∈ terminal_statuses
  ∧ ∃ s0, submits db !! i = Some s0
          ∧ s = if decide (SubmitCtx.Status s0 ∈ terminal_statuses) then s0
                else SubmitCtx.with_Status "dead" s0.
Proof.
  simpl. rewrite list_lookup_fmap.
  destruct (submits db !! i) as [s0|]; [|done]. intros [= <-].
  unfold reap. destruct (is_terminal _) eqn:Hterm.
  - apply is_terminal_spec in Hterm. split; [done|].
    exists s0. by rewrite decide_True.
  - split; [apply list_elem_of_lookup; by exists 2%nat|].
    exists s0. rewrite decide_False; [done|].
    rewrite <- is_terminal_spec. by rewrite Hterm.
Qed.

Lemma C3_reaper_leaves_terminal_witness :
  let s0 := SubmitCtx.with_Status "run_workflow-0_2"
              (judged "1" "alice" 1 false 0%Qc) in
  let s := SubmitCtx.with_Status "dead" s0 in
  SubmitCtx.Status s ∈ terminal_statuses
  ∧ ∃ s1, submits (store [s0]) !! 0%nat = Some s1
          ∧ s = if decide (SubmitCtx.Status s1 ∈ terminal_statuses) then s1
                else SubmitCtx.with_Status "dead" s1.
Proof.
  intros s0 s.
  apply (C3_reaper_leaves_terminal (store [s0]) 0%nat s).
  reflexivity.
Defined.

(** ** C9: admin rescoring *)

Lemma find_save_submit s rows :
  List.find (λ r, bool_decide (SubmitCtx.ID r = SubmitCtx.ID s))
    (save_submit s rows) = Some s.
Proof.
  induction rows as [|r rows IH]; simpl.
  - by rewrite bool_decide_eq_true_2.
  - destruct (decide (SubmitCtx.ID r = SubmitCtx.ID s)) as [He|Hne]; simpl.
    + by rewrite bool_decide_eq_true_2.
    + by rewrite bool_decide_eq_false_2.
Qed.

Lemma GetSubmitByID_ID submitID db s :
  GetSubmitByID submitID db = Some s → SubmitCtx.ID s = submitID.
Proof.
  unfold GetSubmitByID. intros H. apply find_some in H as [_ H].
  by apply bool_decide_eq_true in H.
Qed.













(** * Properties of the evaluator *)

(** ** The rules of [wp] *)

Lemma wp_bind {A B} (m : Judge A) (k : A → Judge B) Q R st :
  wp m (λ a, wp (k a) Q R) R st → wp (bind m k) Q R st.
Proof.
  unfold wp, bind. destruct (m st) as [[a|] st']; [|done].
  by destruct (k a st') as [[b|] st''].
Qed.

Lemma wp_seq {A B} (m : Judge A) (k : Judge B) Q R st :
  wp m (λ _, wp k Q R) R st → wp (m ;; k) Q R st.
Proof. apply wp_bind. Qed.

Lemma wp_mono {A} (m : Judge A) (Q Q' : A → JState → Prop)
    (R R' : JState → Prop) st :
  wp m Q R st →
  (∀ a st', Q a st' → Q' a st') →
  (∀ st', R st' → R' st') →
  wp m Q' R' st.
Proof.
  unfold wp. destruct (m st) as [[a|] st']; intros H HQ HR; auto.
Qed.

Lemma wp_ret {A} (a : A) (Q : A → JState → Prop) R st :
  Q a st → wp (mret a) Q R st.
Proof. done. Qed.

(** The invariant rule of [range_loop]: [I j s] holds before the body runs
    on the element at position [j]. *)
Lemma wp_range_loop {A St} (body : nat → A → St → Judge St)
    (I : nat → St → JState → Prop) (R : JState → Prop) (l : list A) :
  (∀ j x s st, l !! j = Some x → I j s st →
               wp (body j x s) (I (S j)) R st) →
  ∀ s st, I 0%nat s st → wp (range_loop body 0 l s) (I (length l)) R st.
Proof.
  intros Hbody.
  assert (∀ l' i s st, (∀ j x, l' !! j = Some x → l !! (i + j)%nat = Some x) →
            I i s st →
            wp (range_loop body i l' s) (I (i + length l')%nat) R st) as Hgen.
  { induction l' as [|x l' IH]; intros i s st Hl HI; simpl.
    - apply wp_ret. by rewrite Nat.add_0_r.
    - apply wp_bind. eapply wp_mono; [apply (Hbody i x s st)| |done].
      + rewrite <- (Nat.add_0_r i). by apply Hl.
      + done.
      + intros s' st' HI'. simpl.
        replace (i + S (length l'))%nat with (S i + length l')%nat by lia.
        apply IH; [|done]. intros j y Hj.
        replace (S i + j)%nat with (i + S j)%nat by lia. by apply Hl. }
  intros s st HI. by apply (Hgen l 0%nat).
Qed.

(** ** Traces *)

Lemma hashes_of_app tr1 tr2 :
  hashes_of (tr1 ++ tr2) = (hashes_of tr1 ++ hashes_of tr2)%list.
Proof. unfold hashes_of. apply bind_app. Qed.

Lemma hashes_of_snoc_none tr e :
  hash_of e = [] → hashes_of (tr ++ [e]) = hashes_of tr.
Proof.
  intros He. rewrite hashes_of_app. unfold hashes_of at 2. simpl.
  by rewrite He, !app_nil_r.
Qed.

Lemma fatal_no_hash e : fatal e = true → hash_of e = [].
Proof. by destruct e as [| ? ? [h|] | | | | | |]. Qed.

(** A trace has at most one fatal event when all others are not fatal. *)
Lemma fatal_unique (pre pre' post post' : list Event) e e' :
  (pre ++ e :: post = pre' ++ e' :: post')%list →
  Forall (λ e, fatal e = false) pre →
  Forall (λ e, fatal e = false) post →
  fatal e' = true →
  pre' = pre ∧ e' = e ∧ post' = post.
Proof.
  revert pre'. induction pre as [|x pre IH]; intros pre' Heq Hpre Hpost He'.
  - destruct pre' as [|y pre']; simpl in Heq.
    + by simplify_eq.
    + exfalso. simplify_eq.
      apply Forall_app in Hpost as [_ Hpost]. apply Forall_cons_1 in Hpost as [H _].
      congruence.
  - apply Forall_cons_1 in Hpre as [Hx Hpre].
    destruct pre' as [|y pre']; simpl in Heq.
    + simplify_eq. congruence.
    + injection Heq as -> Heq.
      by destruct (IH pre' Heq Hpre Hpost He') as (-> & -> & ->).
Qed.

(** ** Statements that only interact *)

Lemma only_ticks_tick : only_ticks tick.
Proof. intros st. by eexists _, _. Qed.

Lemma only_ticks_discard_call call : only_ticks (discard_call call).
Proof. intros st. by eexists _, _. Qed.

Lemma only_ticks_copyFile w src dst : only_ticks (copyFile w src dst).
Proof.
  intros st. unfold copyFile, bind, tick. simpl.
  destruct (os_Open w _ _); simpl; [|by eexists _, _].
  destruct (os_Create w _ _); simpl; [|by eexists _, _].
  destruct (io_Copy w _ _ _); simpl; [|by eexists _, _].
  destruct (file_Sync w _ _); simpl; by eexists _, _.
Qed.

Lemma only_ticks_all_ok calls : only_ticks (all_ok calls).
Proof.
  induction calls as [|call calls IH]; intros st; simpl.
  - destruct st. by eexists _, _.
  - unfold bind; simpl. destruct (call _); simpl; [|by eexists _, _].
    destruct (IH (mkJState (ctx st) (trace st) (S (ticks st)) (deferred st)))
      as (a & n & ->). by eexists _, _.
Qed.

Lemma wp_only_ticks {A} (m : Judge A) Q R st :
  only_ticks m →
  (∀ a n, Q a (mkJState (ctx st) (trace st) n (deferred st))) →
  wp m Q R st.
Proof. intros Hm HQ. unfold wp. by destruct (Hm st) as (a & n & ->). Qed.

Lemma wp_get_ctx Q R st : Q (ctx st) st → wp get_ctx Q R st.
Proof. done. Qed.

(** ** Statements that keep the pipeline running *)

Section Evaluator_facts.
Variable w : World.
Variable cfg : Config.t.
Variable problem : Problem.t.
Variable c0 : SubmitCtx.t.

Lemma Running_ticks k cids st n :
  Running c0 k cids st →
  Running c0 k cids (mkJState (ctx st) (trace st) n (deferred st)).
Proof. done. Qed.

Lemma Running_SetStatus status k cids Q st :
  Running c0 k cids st →
  (∀ st', Running c0 k cids st' → SubmitCtx.Status (ctx st') = status →
          Q () st') →
  wp (SetStatus w status) Q (Aborted problem c0) st.
Proof.
  intros Hrun HQ. unfold wp, SetStatus. simpl. apply HQ; [|done].
  destruct Hrun as (Htr & Hh & Hd & rs & Hrs & Hk & Hclean).
  repeat split; try done. by exists rs.
Qed.

Lemma Running_SetMsg msg k cids Q st :
  Running c0 k cids st →
  (∀ st', Running c0 k cids st' →
          SubmitCtx.Status (ctx st') = SubmitCtx.Status (ctx st) →
          Q () st') →
  wp (SetMsg w msg) Q (Aborted problem c0) st.
Proof.
  intros Hrun HQ. unfold wp, SetMsg. simpl. apply HQ; [|done].
  destruct Hrun as (Htr & Hh & Hd & rs & Hrs & Hk & Hclean).
  repeat split; try done. by exists rs.
Qed.

Lemma Running_persist k cids Q st :
  Running c0 k cids st →
  (∀ st', Running c0 k cids st' →
          SubmitCtx.Status (ctx st') = SubmitCtx.Status (ctx st) →
          Q () st') →
  wp (persist w) Q (Aborted problem c0) st.
Proof.
  intros Hrun HQ. unfold wp, persist. simpl. apply HQ; [|done].
  destruct Hrun as (Htr & Hh & Hd & rs & Hrs & Hk & Hclean).
  split; [|split; [|split]]; simpl.
  - apply Forall_app. split; [done|]. by apply Forall_singleton.
  - by rewrite hashes_of_snoc_none.
  - done.
  - by exists rs.
Qed.

(** A failure other than a failed step or a staging error. *)
Lemma Running_fail {A} msg k cids (Q : A → JState → Prop) st :
  Running c0 k cids st →
  wp (fail w msg) Q (Aborted problem c0) st.
Proof.
  intros (Htr & Hh & Hd & rs & Hrs & Hk & Hclean).
  unfold wp, fail. simpl. split; [done|]. split; simpl.
  - by rewrite hashes_of_snoc_none.
  - left. apply Forall_app. split; [done|]. by apply Forall_singleton.
Qed.

(** The failure after a fatal event. *)
Lemma Faulted_fail {A} e cids (Q : A → JState → Prop) st :
  Faulted c0 e cids st →
  accounted problem cids e →
  wp (fail w (message_of e)) Q (Aborted problem c0) st.
Proof.
  intros (pre & Htr & Hpre & He & Hh & Hd) Hacc.
  unfold wp, fail. simpl. split; [done|]. split; simpl.
  - rewrite Htr, hashes_of_snoc_none by done.
    by rewrite hashes_of_snoc_none by (by apply fatal_no_hash).
  - right. eexists pre, e, _. rewrite Htr, <- app_assoc. simpl.
    split; [done|]. by rewrite Hd.
Qed.

(** ** Staging *)

Lemma submitFile_spec entry submits_dir submit_path k cids Q R st :
  Running c0 k cids st →
  (∀ st', Running c0 k cids st' → Q false st') →
  (∀ st', Faulted c0 (EvCopyFile entry submit_path None) cids st' →
          Q true st') →
  wp (submitFile w entry submits_dir submit_path) Q R st.
Proof.
  intros Hrun Hok Herr. unfold submitFile.
  apply wp_bind, wp_get_ctx.
  apply wp_seq, wp_only_ticks; [apply only_ticks_discard_call|].
  intros _ n1.
  apply wp_seq, wp_only_ticks; [apply only_ticks_discard_call|].
  intros _ n2.
  apply wp_bind, wp_only_ticks; [apply only_ticks_copyFile|].
  intros [hash|] n3; simpl.
  - unfold wp. simpl. apply Hok.
    destruct Hrun as (Htr & Hh & Hd & rs & Hrs & Hk & Hclean).
    split; [|split; [|split]]; simpl.
    + apply Forall_app. split; [done|]. by apply Forall_singleton.
    + by rewrite Hh, hashes_of_app, <- app_assoc.
    + done.
    + by exists rs.
  - unfold wp. simpl. apply Herr.
    destruct Hrun as (Htr & Hh & Hd & _).
    by exists (trace st).
Qed.

Lemma walk_spec entry submits_dir dir_path visits k cids Q R st :
  Running c0 k cids st →
  (∀ st', Running c0 k cids st' → Q false st') →
  (∀ e st', staging_error_of entry e → Faulted c0 e cids st' →
            Q true st') →
  wp (walk w entry submits_dir dir_path visits) Q R st.
Proof.
  intros Hrun Hok Herr. revert st Hrun.
  induction visits as [|v visits IH]; intros st Hrun; simpl.
  - by apply wp_ret, Hok.
  - destruct (visit_err v).
    + unfold wp. simpl. apply (Herr (EvWalkDirError entry (visit_path v))).
      * right. by eexists.
      * destruct Hrun as (Htr & Hh & Hd & _). by exists (trace st).
    + destruct (visit_IsDir v); simpl; [by apply IH|].
      apply wp_bind. eapply (submitFile_spec entry); [done| |].
      * intros st' Hrun'. simpl. by apply IH.
      * intros st' Hfault. simpl. apply wp_ret.
        eapply Herr; [|done]. left. by eexists.
Qed.

Lemma stage_spec submits_dir entry k cids st :
  entry ∈ Problem.Submits problem →
  Running c0 k cids st →
  wp (stage w submits_dir entry) (λ _, Running c0 k cids)
    (Aborted problem c0) st.
Proof.
  intros Hentry Hrun. unfold stage.
  destruct (Submit.IsDir entry) eqn:Hdir; simpl.
  - apply wp_bind, wp_get_ctx.
    apply wp_bind, wp_only_ticks; [apply only_ticks_tick|]. intros t n.
    apply wp_bind. eapply (walk_spec entry); [by apply Running_ticks| |].
    + intros st' Hrun'. by apply wp_ret.
    + intros e st' Hstaging Hfault. simpl.
      replace ("failed to copy submit directory " ++ Quote (Submit.Path entry))
        with (message_of e)
        by (by destruct Hstaging as [[? ->]|[? ->]]; simpl; rewrite Hdir).
      apply (Faulted_fail e cids); [done|].
      by destruct Hstaging as [[? ->]|[? ->]].
  - apply wp_bind. eapply (submitFile_spec entry); [done| |].
    + intros st' Hrun'. by apply wp_ret.
    + intros st' Hfault. simpl.
      replace ("failed to copy submit file " ++ Quote (Submit.Path entry))
        with (message_of (EvCopyFile entry (Submit.Path entry) None))
        by (by simpl; rewrite Hdir).
      by apply (Faulted_fail _ cids).
Qed.

Lemma staging_spec submits_dir k cids st :
  Running c0 k cids st →
  wp (range_loop (λ _ submit _, stage w submits_dir submit) 0
        (Problem.Submits problem) ())
    (λ _, Running c0 k cids) (Aborted problem c0) st.
Proof.
  intros Hrun.
  eapply wp_mono;
    [apply (wp_range_loop _ (λ _ _, Running c0 k cids))| |]; try done.
  intros j entry [] st' Hj Hrun'. apply stage_spec; [|done].
  apply list_elem_of_lookup. by exists j.
Qed.

(** ** Workflows *)

Lemma Running_emit e k cids Q R st :
  fatal e = false → hash_of e = [] →
  Running c0 k cids st →
  (∀ st', Running c0 k cids st' → Q () st') →
  wp (emit e) Q R st.
Proof.
  intros He Hh (Htr & Hhash & Hd & rs & Hrs & Hk & Hclean) HQ.
  unfold wp. simpl. apply HQ. split; [|split; [|split]]; simpl.
  - apply Forall_app. split; [done|]. by apply Forall_singleton.
  - by rewrite hashes_of_snoc_none.
  - done.
  - by exists rs.
Qed.

Lemma run_step_spec idx workflow cid envs sidx step steps k cids st :
  cid ∈ cids →
  Running c0 k cids st →
  Forall (λ r, WorkflowStepResult.ExitCode r = 0%Z) steps →
  wp (run_step w idx workflow cid envs sidx step steps)
    (λ steps' st',
       Running c0 k cids st'
       ∧ Forall (λ r, WorkflowStepResult.ExitCode r = 0%Z) steps')
    (Aborted problem c0) st.
Proof.
  intros Hcid Hrun Hsteps. unfold run_step.
  apply wp_seq, (Running_SetStatus _ k cids); [done|]. intros st1 Hrun1 _.
  apply wp_seq, (Running_persist k cids); [done|]. intros st2 Hrun2 _.
  apply wp_bind, wp_only_ticks; [apply only_ticks_tick|]. intros t n.
  destruct (docker_ExecContainer w t cid step _ _ envs _)
    as [[ec logs] err].
  destruct (bool_decide (ec ≠ 0%Z) || err) eqn:Hfailed.
  - apply wp_seq. unfold wp at 1. simpl.
    apply (Faulted_fail (EvExecContainer idx sidx cid step ec err) cids);
      [|exact Hcid].
    destruct Hrun2 as (Htr & Hh & Hd & _). exists (trace st2).
    repeat split; try done. unfold fatal. simpl. by rewrite Hfailed.
  - apply wp_seq, (Running_emit _ k cids);
      [by unfold fatal; simpl; rewrite Hfailed|done|done|].
    intros st3 Hrun3.
    apply wp_seq, (Running_persist k cids); [done|]. intros st4 Hrun4 _.
    apply wp_ret. split; [done|].
    apply orb_false_iff in Hfailed as [Hec _].
    apply bool_decide_eq_false in Hec.
    assert (ec = 0%Z) as -> by (by destruct (decide (ec = 0%Z))).
    by apply Forall_insert.
Qed.

Lemma run_workflow_spec sd wd rsd rwd idx workflow k cids st :
  Running c0 k cids st →
  wp (run_workflow w cfg sd wd rsd rwd idx workflow)
    (λ _ st', ∃ cids', Running c0 (S k) cids' st')
    (Aborted problem c0) st.
Proof.
  intros Hrun. unfold run_workflow.
  apply wp_bind, wp_get_ctx.
  apply wp_seq, (Running_SetStatus _ k cids); [done|]. intros st1 Hrun1 _.
  apply wp_seq, (Running_persist k cids); [done|]. intros st2 Hrun2 _.
  apply wp_bind, wp_only_ticks; [apply only_ticks_tick|]. intros t n.
  destruct (docker_RunImage w t _) as [ok cid].
  apply wp_seq, (Running_emit _ k cids); [done|done|done|].
  intros st3 Hrun3.
  destruct ok; simpl; [|by apply (Running_fail _ k cids)].
  apply wp_seq. unfold wp at 1. simpl.
  set (st4 := mkJState _ _ _ _).
  assert (Running c0 k (cid :: cids) st4) as Hrun4.
  { destruct Hrun3 as (Htr & Hh & Hd & Hrs). repeat split; try done.
    simpl. by rewrite Hd. }
  apply wp_bind.
  eapply wp_mono;
    [apply (wp_range_loop _
              (λ _ steps st',
                 Running c0 k (cid :: cids) st'
                 ∧ Forall (λ r, WorkflowStepResult.ExitCode r = 0%Z) steps))
    | |done].
  - intros j step steps st' _ [Hrun' Hsteps].
    apply run_step_spec; [apply elem_of_cons; by left|done|done].
  - split; [done|]. by apply Forall_replicate.
  - intros steps st5 [Hrun5 Hsteps]. simpl.
    apply wp_bind, wp_only_ticks; [apply only_ticks_tick|]. intros t' n'.
    destruct (docker_GetContainerLogs w t' cid) as [logs|].
    + apply wp_seq, (Running_emit _ k (cid :: cids)); [done|done|done|].
      intros st6 Hrun6. unfold wp. simpl. exists (cid :: cids).
      destruct Hrun6 as (Htr & Hh & Hd & rs & Hrs & Hk & Hclean).
      repeat split; try done. simpl.
      exists (rs ++ [WorkflowResult.mk true logs 0 steps])%list.
      split; [by rewrite Hrs, app_assoc|].
      split; [rewrite length_app; simpl; lia|].
      apply Forall_app. split; [done|]. by apply Forall_singleton.
    + apply wp_seq, (Running_emit _ k (cid :: cids)); [done|done|done|].
      intros st6 Hrun6. by apply (Running_fail _ k (cid :: cids)).
Qed.

Lemma workflows_spec sd wd rsd rwd cids st :
  Running c0 0 cids st →
  wp (range_loop
        (λ idx workflow _, run_workflow w cfg sd wd rsd rwd idx workflow)
        0 (Problem.Workflow problem) ())
    (λ _ st', ∃ cids', Running c0 (length (Problem.Workflow problem)) cids' st')
    (Aborted problem c0) st.
Proof.
  intros Hrun.
  eapply wp_mono;
    [apply (wp_range_loop _ (λ j _ st', ∃ cids', Running c0 j cids' st'))
    | |]; try done.
  - intros j workflow [] st' _ [cids' Hrun'].
    by apply (run_workflow_spec _ _ _ _ _ _ j cids').
  - by exists cids.
Qed.

(** ** The body of [RunJudge] *)

Lemma Running_start : Running c0 0 [] (start c0).
Proof.
  split; [done|]. split; [by rewrite app_nil_r|]. split; [done|].
  exists []. by rewrite app_nil_r.
Qed.

Lemma RunJudge_body_spec :
  wp (RunJudge_body w cfg problem) (λ _, Completed problem c0)
    (Aborted problem c0) (start c0).
Proof.
  unfold RunJudge_body. pose proof Running_start as Hrun0.
  apply wp_seq, (Running_SetStatus _ 0 []); [done|]. intros st1 Hrun1 _.
  apply wp_seq, (Running_persist 0 []); [done|]. intros st2 Hrun2 _.
  apply wp_bind, wp_get_ctx.
  apply wp_bind, wp_only_ticks; [apply only_ticks_all_ok|].
  intros created n.
  destruct created; simpl; [|by apply (Running_fail _ 0 [])].
  apply wp_seq, (Running_SetStatus _ 0 []); [done|]. intros st3 Hrun3 _.
  apply wp_seq, (Running_persist 0 []); [done|]. intros st4 Hrun4 _.
  apply wp_seq.
  eapply wp_mono; [by apply (staging_spec _ 0 [])| |done].
  intros [] st5 Hrun5. simpl.
  apply wp_seq, (Running_SetStatus _ 0 []); [done|]. intros st6 Hrun6 _.
  apply wp_seq, (Running_persist 0 []); [done|]. intros st7 Hrun7 _.
  apply wp_seq.
  eapply wp_mono; [by apply (workflows_spec _ _ _ _ [])| |done].
  intros [] st8 [cids Hrun8]. simpl.
  set (K := length (Problem.Workflow problem)) in *.
  apply wp_seq, (Running_SetStatus _ K cids); [done|]. intros st9 Hrun9 _.
  apply wp_seq, (Running_persist K cids); [done|]. intros st10 Hrun10 _.
  apply wp_bind, wp_only_ticks; [apply only_ticks_tick|]. intros t n'.
  destruct (os_ReadFile w t _) as [_result|];
    [|by apply (Running_fail _ K cids)].
  apply wp_bind, wp_get_ctx. simpl.
  destruct (json_Unmarshal w _result _) as [jr parsed].
  apply wp_seq. unfold wp at 1. simpl.
  set (st11 := mkJState _ _ _ _).
  assert (Running c0 K cids st11) as Hrun11.
  { destruct Hrun10 as (Htr & Hh & Hd & Hrs). by repeat split. }
  destruct parsed; simpl; [|by apply (Running_fail _ K cids)].
  apply wp_seq, (Running_SetStatus _ K cids); [done|].
  intros st12 Hrun12 Hst12.
  apply wp_seq, (Running_SetMsg _ K cids); [done|].
  intros st13 Hrun13 Hst13.
  apply (Running_persist K cids); [done|]. intros st14 Hrun14 Hst14.
  split; [congruence|]. by exists cids.
Qed.
End Evaluator_facts.

(** ** [RunJudge] as a whole *)

(** The run is the body followed by the deferred calls. *)
Lemma RunJudge_unfold w cfg c problem :
  ∃ o stb,
    RunJudge_body w cfg problem (start c) = (o, stb)
    ∧ RunJudge w cfg c problem
      = mkJState
          (SubmitCtx.with_LastUpdate (clock w (ticks stb)) (ctx stb))
          (trace stb
           ++ (EvCleanContainer <$> deferred stb)
           ++ [EvClose;
               EvUpdateSubmit
                 (SubmitCtx.with_LastUpdate (clock w (ticks stb)) (ctx stb))])
          (S (ticks stb)) [].
Proof.
  unfold RunJudge. destruct (RunJudge_body w cfg problem (start c)) as [o stb].
  exists o, stb. split; [done|]. simpl. by rewrite <- !app_assoc.
Qed.

(** A run that ends with status completed has run its body to the end. *)
Lemma RunJudge_completed w cfg c problem :
  SubmitCtx.Status (ctx (RunJudge w cfg c problem)) = "completed" →
  ∃ rs, SubmitCtx.WorkflowResults (ctx (RunJudge w cfg c problem))
        = (SubmitCtx.WorkflowResults c ++ rs)%list
        ∧ length rs = length (Problem.Workflow problem)
        ∧ Forall clean_result rs.
Proof.
  destruct (RunJudge_unfold w cfg c problem) as (o & stb & Hbody & ->).
  pose proof (RunJudge_body_spec w cfg problem c) as Hspec.
  unfold wp in Hspec. rewrite Hbody in Hspec. simpl.
  destruct o as [[]|].
  - intros _. destruct Hspec as (_ & cids & _ & _ & _ & rs & Hrs).
    by exists rs.
  - destruct Hspec as (Hfailed & _). congruence.
Qed.

(** A run whose trace has a fatal event at position [i]: up to [i] no event
    is fatal; after it come the save of the failed context, the cleanups of
    the containers started and the deferred close and save. *)
Lemma RunJudge_fatal w cfg c problem i e :
  trace (RunJudge w cfg c problem) !! i = Some e →
  fatal e = true →
  ∃ pre cids c',
    trace (RunJudge w cfg c problem)
    = (pre ++ e :: EvUpdateSubmit c' :: (EvCleanContainer <$> cids)
       ++ [EvClose; EvUpdateSubmit (ctx (RunJudge w cfg c problem))])%list
    ∧ length pre = i
    ∧ Forall (λ e, fatal e = false) pre
    ∧ SubmitCtx.Status (ctx (RunJudge w cfg c problem)) = "failed"
    ∧ SubmitCtx.Msg (ctx (RunJudge w cfg c problem)) = message_of e
    ∧ accounted problem cids e
    ∧ SubmitCtx.SubmitsHashes (ctx (RunJudge w cfg c problem))
      = (SubmitCtx.SubmitsHashes c ++ hashes_of pre)%list.
Proof.
  destruct (RunJudge_unfold w cfg c problem) as (o & stb & Hbody & ->).
  pose proof (RunJudge_body_spec w cfg problem c) as Hspec.
  unfold wp in Hspec. rewrite Hbody in Hspec. simpl.
  set (cfin := SubmitCtx.with_LastUpdate _ _).
  intros Hi He.
  assert (Forall (λ e, fatal e = false)
            ((EvCleanContainer <$> deferred stb) ++ [EvClose; EvUpdateSubmit cfin]))
    as Htail.
  { apply Forall_app. split.
    - by apply Forall_fmap, Forall_true.
    - by repeat constructor. }
  assert (Forall (λ e, fatal e = false) (trace stb) → False) as Hquiet.
  { intros Hall.
    assert (Forall (λ e, fatal e = false)
              (trace stb ++ (EvCleanContainer <$> deferred stb)
               ++ [EvClose; EvUpdateSubmit cfin])) as Hall'
      by (by apply Forall_app).
    rewrite Forall_lookup in Hall'. specialize (Hall' i e Hi). simpl in Hall'.
    congruence. }
  assert (Aborted problem c stb) as (Hst & Hh & [Hall|Hfatal]).
  { destruct o as [[]|]; [|done]. exfalso. apply Hquiet.
    by destruct Hspec as (_ & cids & Hall & _). }
  { by destruct Hquiet. }
  destruct Hfatal as (pre & e0 & c' & Htr & Hpre & He0 & Hmsg & Hacc).
  pose proof (lookup_lt_Some _ _ _ Hi) as Hlt.
  apply take_drop_middle in Hi. rewrite Htr, <- app_assoc in Hi, Hlt.
  simpl in Hi, Hlt.
  symmetry in Hi.
  apply fatal_unique in Hi as (Hpre' & -> & Hpost); try done.
  2:{ constructor; [done|]. done. }
  exists pre, (deferred stb), c'. rewrite Htr, <- app_assoc. simpl.
  split; [done|]. split.
  { rewrite <- Hpre', length_take. lia. }
  split; [done|]. split; [done|]. split; [done|]. split; [done|].
  rewrite Hh, Htr, hashes_of_app. f_equal. unfold hashes_of. simpl.
  by rewrite (fatal_no_hash e0), app_nil_r.
Qed.

Lemma RunJudge_after_fatal w cfg c problem i e j e' :
  trace (RunJudge w cfg c problem) !! i = Some e →
  fatal e = true →
  (i < j)%nat →
  trace (RunJudge w cfg c problem) !! j = Some e' →
  winding_up e' = true.
Proof.
  intros Hi He Hij Hj.
  destruct (RunJudge_fatal _ _ _ _ _ _ Hi He)
    as (pre & cids & c' & Htr & Hlen & _).
  rewrite Htr in Hj. rewrite lookup_app_r in Hj by lia.
  destruct (j - length pre)%nat as [|n] eqn:Hn; [lia|]. simpl in Hj.
  destruct n as [|n]; simpl in Hj; [by injection Hj as <-|].
  apply list_elem_of_lookup_2, elem_of_app in Hj as [Hj|Hj].
  - by apply list_elem_of_fmap in Hj as (cid & -> & _).
  - apply elem_of_cons in Hj as [->|Hj]; [done|].
    by apply list_elem_of_singleton in Hj as ->.
Qed.

(** C4. A run of the pipeline that starts without workflow results and ends
    with status completed has one workflow result per workflow of the
    problem, and every step result in them has exit code 0. *)
Theorem C4_completed_has_clean_results w cfg c problem :
  SubmitCtx.WorkflowResults c = [] →
  SubmitCtx.Status (ctx (RunJudge w cfg c problem)) = "completed" →
  length (SubmitCtx.WorkflowResults (ctx (RunJudge w cfg c problem)))
  = length (Problem.Workflow problem)
  ∧ ∀ r step,
      r ∈ SubmitCtx.WorkflowResults (ctx (RunJudge w cfg c problem)) →
      step ∈ WorkflowResult.Steps r →
      WorkflowStepResult.ExitCode step = 0%Z.
Proof.
  intros Hnil Hdone.
  destruct (RunJudge_completed _ _ _ _ Hdone) as (rs & -> & Hlen & Hclean).
  rewrite Hnil. simpl. split; [done|].
  intros r step Hr Hstep. rewrite Forall_forall in Hclean.
  specialize (Hclean r Hr). unfold clean_result in Hclean.
  rewrite Forall_forall in Hclean. by apply Hclean.
Qed.

Lemma C4_completed_has_clean_results_witness :
  length (SubmitCtx.WorkflowResults (ctx (RunJudge world_ok cfg1 ctx1 hello_py)))
  = length (Problem.Workflow hello_py)
  ∧ ∀ r step,
      r ∈ SubmitCtx.WorkflowResults (ctx (RunJudge world_ok cfg1 ctx1 hello_py)) →
      step ∈ WorkflowResult.Steps r →
      WorkflowStepResult.ExitCode step = 0%Z.
Proof.
  apply (C4_completed_has_clean_results world_ok cfg1 ctx1 hello_py).
  - reflexivity.
  - vm_compute. reflexivity.
Defined.

(** C6. When a step execution of a run returns a non-zero exit code or an
    error, the run ends with status failed and the message
    "failed to run judge <idx+1> step <sidx+1>"; every later event of the
    run is a save of the context, a container cleanup or the closing of the
    completion signal, so no further step or workflow runs; and the
    container of the failed step is cleaned before the run ends. *)
Theorem C6_failed_step_aborts w cfg c problem i idx sidx cid cmd ec err :
  trace (RunJudge w cfg c problem) !! i
  = Some (EvExecContainer idx sidx cid cmd ec err) →
  ec ≠ 0%Z ∨ err = true →
  SubmitCtx.Status (ctx (RunJudge w cfg c problem)) = "failed"
  ∧ SubmitCtx.Msg (ctx (RunJudge w cfg c problem))
    = "failed to run judge " ++ Itoa (Z.of_nat idx + 1) ++ " step "
      ++ Itoa (Z.of_nat sidx + 1)
  ∧ (∀ j e, (i < j)%nat → trace (RunJudge w cfg c problem) !! j = Some e →
            winding_up e = true)
  ∧ ∃ j, (i < j)%nat
         ∧ trace (RunJudge w cfg c problem) !! j = Some (EvCleanContainer cid).
Proof.
  intros Hi Hfail.
  assert (fatal (EvExecContainer idx sidx cid cmd ec err) = true) as He.
  { unfold fatal. simpl. destruct Hfail as [Hec| ->].
    - by rewrite bool_decide_eq_true_2.
    - by rewrite orb_true_r. }
  destruct (RunJudge_fatal _ _ _ _ _ _ Hi He)
    as (pre & cids & c' & Htr & Hlen & _ & Hst & Hmsg & Hacc & _).
  split; [done|]. split; [done|]. split.
  { intros j e Hij Hj.
    exact (RunJudge_after_fatal _ _ _ _ _ _ _ _ Hi He Hij Hj). }
  simpl in Hacc. apply list_elem_of_lookup in Hacc as [n Hn].
  exists (length pre + 2 + n)%nat. split; [lia|].
  rewrite Htr, lookup_app_r by lia.
  replace (length pre + 2 + n - length pre)%nat with (S (S n)) by lia.
  simpl. rewrite lookup_app_l.
  - by rewrite list_lookup_fmap, Hn.
  - rewrite length_fmap. by eapply lookup_lt_Some.
Qed.

Lemma C6_failed_step_aborts_witness :
  let st := RunJudge world_step_fails cfg1 ctx1 hello_py in
  SubmitCtx.Status (ctx st) = "failed"
  ∧ SubmitCtx.Msg (ctx st)
    = "failed to run judge " ++ Itoa (Z.of_nat 0 + 1) ++ " step "
      ++ Itoa (Z.of_nat 0 + 1)
  ∧ (∀ j e, (8 < j)%nat → trace st !! j = Some e → winding_up e = true)
  ∧ ∃ j, (8 < j)%nat ∧ trace st !! j = Some (EvCleanContainer "container-31").
Proof.
  apply (C6_failed_step_aborts world_step_fails cfg1 ctx1 hello_py 8 0 0
           "container-31" "python /submits/main.py > /work/out" 1 false).
  - vm_compute. reflexivity.
  - left. lia.
Defined.




(** ** C10: [Userface.Write] *)

(** C10. For every byte slice [p], [Userface.Write] returns [(len(p), nil)],
    whether or not the live sink is present and whatever the writes to the
    buffer and to the sink return. *)
Theorem C10_Userface_Write_returns_len_nil {W : Type} `{Writer W}
    (f : Userface.t W) (p : list Byte.byte) :
  (Userface_Write f p).2 = (len p, None).
Proof.
  unfold Userface_Write. destruct (Userface.Writer_ f) as [sink|]; [|done].
  by destruct (MultiWriter_Write _ _ _ _) as [[b sink'] r].
Qed.

(** The buffer takes the bytes in either case. *)
Lemma Userface_Write_buffer {W : Type} `{Writer W} (f : Userface.t W)
    (p : list Byte.byte) :
  Userface.Buffer_ (Userface_Write f p).1 = (Userface.Buffer_ f ++ p)%list.
Proof.
  unfold Userface_Write, MultiWriter_Write, Buffer_Write.
  destruct (Userface.Writer_ f) as [sink|]; [|done]. simpl.
  rewrite bool_decide_eq_false_2 by (intros Hne; by apply Hne).
  destruct (Write sink p) as [sink' [n [err|]]]; [done|].
  by destruct (bool_decide (n ≠ len p)).
Qed.

(** A sink that fails on every write does not change the result. *)
Example Userface_Write_broken_sink :
  Userface_Write (Userface.mk [] (Some (broken 0))) [Byte.x68; Byte.x69]
  = (Userface.mk [Byte.x68; Byte.x69] (Some (broken 0)), (2%Z, None)).
Proof. reflexivity. Qed.


(** * Further properties of the evaluator *)

(** ** Every run ends in a terminal status *)

(** X1. Whatever the outside world answers, [RunJudge] ends with status
    completed or failed: no run leaves the context in a transient status. *)
Theorem RunJudge_ends_terminal w cfg c problem :
  SubmitCtx.Status (ctx (RunJudge w cfg c problem)) = "completed"
  ∨ SubmitCtx.Status (ctx (RunJudge w cfg c problem)) = "failed".
Proof.
  destruct (RunJudge_unfold w cfg c problem) as (o & stb & Hbody & ->).
  pose proof (RunJudge_body_spec w cfg problem c) as Hspec.
  unfold wp in Hspec. rewrite Hbody in Hspec. simpl.
  destruct o as [[]|].
  - left. by destruct Hspec as [Hst _].
  - right. by destruct Hspec as [Hst _].
Qed.

(** X2. The hashes in the context when the run ends are those it started
    with followed by one entry per successful file copy of the run, in the
    order of the copies. *)
Theorem RunJudge_hashes w cfg c problem :
  SubmitCtx.SubmitsHashes (ctx (RunJudge w cfg c problem))
  = (SubmitCtx.SubmitsHashes c
     ++ hashes_of (trace (RunJudge w cfg c problem)))%list.
Proof.
  destruct (RunJudge_unfold w cfg c problem) as (o & stb & Hbody & ->).
  pose proof (RunJudge_body_spec w cfg problem c) as Hspec.
  unfold wp in Hspec. rewrite Hbody in Hspec. simpl.
  assert (SubmitCtx.SubmitsHashes (ctx stb)
          = (SubmitCtx.SubmitsHashes c ++ hashes_of (trace stb))%list) as ->.
  { destruct o as [[]|].
    - by destruct Hspec as (_ & cids & _ & Hh & _).
    - by destruct Hspec as (_ & Hh & _). }
  f_equal. rewrite !hashes_of_app.
  assert (hashes_of (EvCleanContainer <$> deferred stb) = []) as ->.
  { induction (deferred stb) as [|cid cids IH]; [done|]. done. }
  by rewrite app_nil_r.
Qed.

(** ** Containers and deferred calls *)

Lemma started_of_app tr1 tr2 :
  started_of (tr1 ++ tr2) = (started_of tr1 ++ started_of tr2)%list.
Proof. unfold started_of. apply bind_app. Qed.

Lemma cleaned_of_app tr1 tr2 :
  cleaned_of (tr1 ++ tr2) = (cleaned_of tr1 ++ cleaned_of tr2)%list.
Proof. unfold cleaned_of. apply bind_app. Qed.

Lemma started_of_cons e tr :
  started_of (e :: tr) = (started e ++ started_of tr)%list.
Proof. done. Qed.

Lemma cleaned_of_cons e tr :
  cleaned_of (e :: tr) = (cleaned e ++ cleaned_of tr)%list.
Proof. done. Qed.

Lemma tidy_ret {A} (a : A) : tidy (mret a : Judge A).
Proof.
  intros st. exists []. simpl. by rewrite app_nil_r.
Qed.

Lemma tidy_return {A} : tidy (return_ : Judge A).
Proof. intros st. exists []. simpl. by rewrite app_nil_r. Qed.

Lemma tidy_get_ctx : tidy get_ctx.
Proof. intros st. exists []. simpl. by rewrite app_nil_r. Qed.

Lemma tidy_tick : tidy tick.
Proof. intros st. exists []. simpl. by rewrite app_nil_r. Qed.

Lemma tidy_modify_ctx f : tidy (modify_ctx f).
Proof. intros st. exists []. simpl. by rewrite app_nil_r. Qed.

Lemma tidy_emit e : body_event e = true → started e = [] → tidy (emit e).
Proof.
  intros He Hs st. exists [e]. simpl. split; [done|].
  unfold started_of. simpl. rewrite Hs. split; [done|].
  by apply Forall_singleton.
Qed.

Lemma tidy_bind {A B} (m : Judge A) (k : A → Judge B) :
  tidy m → (∀ a, tidy (k a)) → tidy (bind m k).
Proof.
  intros Hm Hk st. unfold bind.
  destruct (Hm st) as (Δ1 & Htr1 & Hd1 & Hb1).
  destruct (m st) as [[a|] st1]; simpl in *; [|by exists Δ1].
  destruct (Hk a st1) as (Δ2 & Htr2 & Hd2 & Hb2).
  exists (Δ1 ++ Δ2)%list. rewrite Htr2, Htr1, Hd2, Hd1, started_of_app.
  rewrite reverse_app, <- !app_assoc. split; [done|]. split; [done|].
  by apply Forall_app.
Qed.

Lemma tidy_seq {A B} (m : Judge A) (k : Judge B) :
  tidy m → tidy k → tidy (m ;; k).
Proof. intros Hm Hk. by apply tidy_bind. Qed.

Lemma tidy_range_loop {A St} (body : nat → A → St → Judge St) l :
  (∀ i x s, tidy (body i x s)) → ∀ i s, tidy (range_loop body i l s).
Proof.
  intros Hbody. induction l as [|x l IH]; intros i s; simpl.
  - apply tidy_ret.
  - apply tidy_bind; [apply Hbody|]. intros s'. apply IH.
Qed.

(** Starting a container and deferring its cleanup. *)
Lemma tidy_started {A} idx args cid (rest : Judge A) :
  tidy rest →
  tidy (emit (EvRunImage idx args true cid);; defer cid;; rest).
Proof.
  intros Hrest st. cbv [mbind Judge_bind bind emit defer]. simpl.
  destruct (Hrest (mkJState (ctx st)
                     (trace st ++ [EvRunImage idx args true cid])
                     (ticks st) (cid :: deferred st)))
    as (Δ & Htr & Hd & Hb). simpl in *.
  exists (EvRunImage idx args true cid :: Δ).
  rewrite Htr, Hd, <- app_assoc. split; [done|]. split.
  - rewrite started_of_cons. simpl.
    by rewrite reverse_cons, <- app_assoc.
  - by apply Forall_cons.
Qed.

Section Tidy_evaluator.
Variable w : World.
Variable cfg : Config.t.

Lemma tidy_SetStatus status : tidy (SetStatus w status).
Proof. apply tidy_bind; [apply tidy_tick|]. intros n. apply tidy_modify_ctx. Qed.

Lemma tidy_SetMsg msg : tidy (SetMsg w msg).
Proof. apply tidy_bind; [apply tidy_tick|]. intros n. apply tidy_modify_ctx. Qed.

Lemma tidy_persist : tidy (persist w).
Proof.
  apply tidy_bind; [apply tidy_tick|]. intros n.
  apply tidy_seq; [apply tidy_modify_ctx|].
  apply tidy_bind; [apply tidy_get_ctx|]. intros c. by apply tidy_emit.
Qed.

Lemma tidy_fail {A} msg : tidy (fail w msg : Judge A).
Proof.
  apply tidy_seq; [apply tidy_SetStatus|].
  apply tidy_seq; [apply tidy_SetMsg|].
  apply tidy_seq; [apply tidy_persist|apply tidy_return].
Qed.

Lemma tidy_discard_call call : tidy (discard_call call).
Proof. apply tidy_bind; [apply tidy_tick|]. intros n. apply tidy_ret. Qed.

Lemma tidy_copyFile src dst : tidy (copyFile w src dst).
Proof.
  unfold copyFile. apply tidy_bind; [apply tidy_tick|]. intros n1.
  destruct (os_Open w n1 src); [|apply tidy_ret].
  apply tidy_bind; [apply tidy_tick|]. intros n2.
  destruct (os_Create w n2 dst); simpl; [|apply tidy_ret].
  apply tidy_bind; [apply tidy_tick|]. intros n3.
  destruct (io_Copy w n3 src dst); simpl; [|apply tidy_ret].
  apply tidy_bind; [apply tidy_tick|]. intros n4.
  destruct (file_Sync w n4 dst); simpl; apply tidy_ret.
Qed.

Lemma tidy_submitFile entry submits_dir submit_path :
  tidy (submitFile w entry submits_dir submit_path).
Proof.
  unfold submitFile. apply tidy_bind; [apply tidy_get_ctx|]. intros c.
  apply tidy_seq; [apply tidy_discard_call|].
  apply tidy_seq; [apply tidy_discard_call|].
  apply tidy_bind; [apply tidy_copyFile|]. intros [hash|].
  - apply tidy_seq; [apply tidy_discard_call|].
    apply tidy_seq; [apply tidy_discard_call|].
    apply tidy_seq; [apply tidy_modify_ctx|].
    apply tidy_seq; [by apply tidy_emit|apply tidy_ret].
  - apply tidy_seq; [by apply tidy_emit|apply tidy_ret].
Qed.

Lemma tidy_walk entry submits_dir dir_path visits :
  tidy (walk w entry submits_dir dir_path visits).
Proof.
  induction visits as [|v visits IH]; simpl; [apply tidy_ret|].
  destruct (visit_err v).
  { apply tidy_seq; [by apply tidy_emit|apply tidy_ret]. }
  destruct (visit_IsDir v); simpl; [done|].
  apply tidy_bind; [apply tidy_submitFile|]. intros [|]; [apply tidy_ret|done].
Qed.

Lemma tidy_stage submits_dir submit : tidy (stage w submits_dir submit).
Proof.
  unfold stage. destruct (Submit.IsDir submit); simpl.
  - apply tidy_bind; [apply tidy_get_ctx|]. intros c.
    apply tidy_bind; [apply tidy_tick|]. intros n.
    apply tidy_bind; [apply tidy_walk|].
    intros [|]; [apply tidy_fail|apply tidy_ret].
  - apply tidy_bind; [apply tidy_submitFile|].
    intros [|]; [apply tidy_fail|apply tidy_ret].
Qed.

Lemma tidy_all_ok calls : tidy (all_ok calls).
Proof.
  induction calls as [|call calls IH]; simpl; [apply tidy_ret|].
  apply tidy_bind; [apply tidy_tick|]. intros n.
  destruct (call n); [done|apply tidy_ret].
Qed.

Lemma tidy_run_step idx workflow cid envs sidx step steps :
  tidy (run_step w idx workflow cid envs sidx step steps).
Proof.
  unfold run_step.
  apply tidy_seq; [apply tidy_SetStatus|].
  apply tidy_seq; [apply tidy_persist|].
  apply tidy_bind; [apply tidy_tick|]. intros n.
  destruct (docker_ExecContainer w n cid step _ _ envs _) as [[ec logs] err].
  apply tidy_seq; [by apply tidy_emit|].
  destruct (bool_decide (ec ≠ 0%Z) || err); [apply tidy_fail|].
  apply tidy_seq; [apply tidy_persist|apply tidy_ret].
Qed.

Lemma tidy_run_workflow sd wd rsd rwd idx workflow :
  tidy (run_workflow w cfg sd wd rsd rwd idx workflow).
Proof.
  unfold run_workflow. apply tidy_bind; [apply tidy_get_ctx|]. intros c.
  apply tidy_seq; [apply tidy_SetStatus|].
  apply tidy_seq; [apply tidy_persist|].
  apply tidy_bind; [apply tidy_tick|]. intros n.
  destruct (docker_RunImage w n _) as [[|] cid]; simpl.
  - apply tidy_started.
    apply tidy_bind; [apply tidy_range_loop; intros; apply tidy_run_step|].
    intros steps. apply tidy_bind; [apply tidy_tick|]. intros n'.
    destruct (docker_GetContainerLogs w n' cid).
    + apply tidy_seq; [by apply tidy_emit|apply tidy_modify_ctx].
    + apply tidy_seq; [by apply tidy_emit|apply tidy_fail].
  - apply tidy_seq; [by apply tidy_emit|apply tidy_fail].
Qed.

Lemma tidy_RunJudge_body problem : tidy (RunJudge_body w cfg problem).
Proof.
  unfold RunJudge_body.
  apply tidy_seq; [apply tidy_SetStatus|].
  apply tidy_seq; [apply tidy_persist|].
  apply tidy_bind; [apply tidy_get_ctx|]. intros c.
  apply tidy_bind; [apply tidy_all_ok|]. intros [|]; simpl; [|apply tidy_fail].
  apply tidy_seq; [apply tidy_SetStatus|].
  apply tidy_seq; [apply tidy_persist|].
  apply tidy_seq; [apply tidy_range_loop; intros; apply tidy_stage|].
  apply tidy_seq; [apply tidy_SetStatus|].
  apply tidy_seq; [apply tidy_persist|].
  apply tidy_seq; [apply tidy_range_loop; intros; apply tidy_run_workflow|].
  apply tidy_seq; [apply tidy_SetStatus|].
  apply tidy_seq; [apply tidy_persist|].
  apply tidy_bind; [apply tidy_tick|]. intros n.
  destruct (os_ReadFile w n _) as [_result|]; [|apply tidy_fail].
  apply tidy_bind; [apply tidy_get_ctx|]. intros c'.
  destruct (json_Unmarshal w _result _) as [jr [|]]; simpl.
  - apply tidy_seq; [apply tidy_modify_ctx|].
    apply tidy_seq; [apply tidy_SetStatus|].
    apply tidy_seq; [apply tidy_SetMsg|apply tidy_persist].
  - apply tidy_seq; [apply tidy_modify_ctx|apply tidy_fail].
Qed.
End Tidy_evaluator.

Lemma cleaned_of_body tr :
  Forall (λ e, body_event e = true) tr → cleaned_of tr = [].
Proof.
  induction 1 as [|e tr He _ IH]; [done|].
  rewrite cleaned_of_cons, IH. by destruct e.
Qed.

Lemma cleaned_of_cleans cids : cleaned_of (EvCleanContainer <$> cids) = cids.
Proof.
  induction cids as [|cid cids IH]; [done|].
  rewrite fmap_cons, cleaned_of_cons, IH. done.
Qed.

Lemma started_of_cleans cids : started_of (EvCleanContainer <$> cids) = [].
Proof. by induction cids. Qed.

(** The shape of the trace of a run. *)
Lemma RunJudge_trace w cfg c problem :
  ∃ body cids,
    trace (RunJudge w cfg c problem)
    = (body ++ (EvCleanContainer <$> cids)
       ++ [EvClose; EvUpdateSubmit (ctx (RunJudge w cfg c problem))])%list
    ∧ cids = reverse (started_of body)
    ∧ Forall (λ e, body_event e = true) body.
Proof.
  destruct (RunJudge_unfold w cfg c problem) as (o & stb & Hbody & ->).
  destruct (tidy_RunJudge_body w cfg problem (start c)) as (Δ & Htr & Hd & Hb).
  rewrite Hbody in Htr, Hd. simpl in *. rewrite app_nil_r in Hd.
  exists Δ, (deferred stb). by rewrite Htr.
Qed.

(** X3. When [RunJudge] returns, every container it started has been
    cleaned exactly once, the last started first, and no other container
    has been cleaned. *)
Theorem RunJudge_cleans_started_containers w cfg c problem :
  cleaned_of (trace (RunJudge w cfg c problem))
  = reverse (started_of (trace (RunJudge w cfg c problem))).
Proof.
  destruct (RunJudge_trace w cfg c problem) as (body & cids & -> & -> & Hb).
  rewrite !cleaned_of_app, !started_of_app, cleaned_of_body by done.
  rewrite cleaned_of_cleans, started_of_cleans. simpl.
  by rewrite !app_nil_r.
Qed.

(** X4. The last two things a run does are closing [ctx.Running] and saving
    the context it ends with; the completion signal is closed nowhere
    before. *)
Theorem RunJudge_closes_once_and_saves_last w cfg c problem :
  ∃ pre,
    trace (RunJudge w cfg c problem)
    = (pre ++ [EvClose; EvUpdateSubmit (ctx (RunJudge w cfg c problem))])%list
    ∧ EvClose ∉ pre.
Proof.
  destruct (RunJudge_trace w cfg c problem) as (body & cids & Htr & _ & Hb).
  exists (body ++ (EvCleanContainer <$> cids))%list.
  rewrite Htr, <- app_assoc. split; [done|].
  intros [Hin|Hin]%elem_of_app.
  - rewrite Forall_forall in Hb. by specialize (Hb _ Hin).
  - by apply list_elem_of_fmap in Hin as (cid & ? & _).
Qed.


(** * Further properties of the store *)

(** ** Saving and reading a submission *)

Lemma find_save_submit_ne id s rows :
  id ≠ SubmitCtx.ID s →
  List.find (λ r, bool_decide (SubmitCtx.ID r = id)) (save_submit s rows)
  = List.find (λ r, bool_decide (SubmitCtx.ID r = id)) rows.
Proof.
  intros Hne. induction rows as [|r rows IH]; simpl.
  - by rewrite bool_decide_eq_false_2.
  - destruct (decide (SubmitCtx.ID r = SubmitCtx.ID s)) as [He|Hne']; simpl.
    + rewrite !bool_decide_eq_false_2; [done|congruence|congruence].
    + by rewrite IH.
Qed.


Lemma save_submit_ids s rows :
  SubmitCtx.ID <$> save_submit s rows
  = if decide (SubmitCtx.ID s ∈ SubmitCtx.ID <$> rows)
    then SubmitCtx.ID <$> rows
    else ((SubmitCtx.ID <$> rows) ++ [SubmitCtx.ID s])%list.
Proof.
  induction rows as [|r rows IH].
  - case_decide as Hin; [by apply elem_of_nil in Hin|done].
  - cbn [save_submit]. rewrite fmap_cons.
    destruct (decide (SubmitCtx.ID r = SubmitCtx.ID s)) as [He|Hne].
    + rewrite decide_True by (rewrite He; apply elem_of_cons; by left).
      by rewrite fmap_cons, He.
    + rewrite fmap_cons, IH.
      destruct (decide (SubmitCtx.ID s ∈ SubmitCtx.ID <$> rows)) as [Hin|Hin].
      * rewrite decide_True; [done|]. apply elem_of_cons. by right.
      * rewrite decide_False; [done|].
        intros [?|?]%elem_of_cons; congruence.
Qed.

(** X6. [UpdateSubmit] keeps the ids of the table in their order when a
    row with the id exists (the row is replaced in place) and adds the id
    at the end otherwise; a table with unique ids keeps unique ids. *)
Theorem UpdateSubmit_ids now s db :
  unique_ids (submits db) →
  unique_ids (submits (UpdateSubmit now s db))
  ∧ SubmitCtx.ID <$> submits (UpdateSubmit now s db)
    = if decide (SubmitCtx.ID s ∈ SubmitCtx.ID <$> submits db)
      then SubmitCtx.ID <$> submits db
      else ((SubmitCtx.ID <$> submits db) ++ [SubmitCtx.ID s])%list.
Proof.
  intros Huniq. unfold unique_ids, UpdateSubmit. simpl.
  rewrite (save_submit_ids (SubmitCtx.with_LastUpdate now s)). simpl.
  split; [|done]. destruct (decide _) as [Hin|Hin]; [done|].
  apply NoDup_app. split; [done|]. split; [|apply NoDup_singleton].
  intros x Hx ->%list_elem_of_singleton. done.
Qed.

Lemma UpdateSubmit_ids_witness :
  let s := judged "2" "alice" 2 true (f64 50) in
  let db := store [judged "1" "alice" 1 true (f64 50)] in
  unique_ids (submits (UpdateSubmit 9 s db))
  ∧ SubmitCtx.ID <$> submits (UpdateSubmit 9 s db)
    = if decide (SubmitCtx.ID s ∈ SubmitCtx.ID <$> submits db)
      then SubmitCtx.ID <$> submits db
      else ((SubmitCtx.ID <$> submits db) ++ [SubmitCtx.ID s])%list.
Proof.
  intros s db. apply (UpdateSubmit_ids 9 s db).
  unfold unique_ids. simpl. apply (bool_decide_unpack _). vm_compute. exact I.
Defined.

(** ** The reaper and the queries for a running submission *)

Lemma reap_not_running userID s : is_running_of userID (reap s) = false.
Proof.
  unfold reap, is_running_of, is_terminal.
  destruct (bool_decide (SubmitCtx.Status s = "completed")) eqn:H1; simpl.
  { rewrite H1. simpl. by rewrite andb_false_r. }
  destruct (bool_decide (SubmitCtx.Status s = "dead")) eqn:H2; simpl.
  { rewrite H2. by rewrite !andb_false_r. }
  destruct (bool_decide (SubmitCtx.Status s = "failed")) eqn:H3; simpl.
  { rewrite H3. simpl. by rewrite !andb_false_r. }
  by rewrite !andb_false_r.
Qed.

Lemma filter_running_reaped userID rows :
  List.filter (is_running_of userID) (reap <$> rows) = [].
Proof.
  induction rows as [|r rows IH]; [done|].
  rewrite fmap_cons. simpl. by rewrite reap_not_running.
Qed.

(** X7. After the startup reaper no user has a running submission:
    [HasUserRunningSubmit] is false and [GetUserRunningSubmit] finds no
    record, for every user. *)
Theorem no_running_submit_after_reaper userID db :
  HasUserRunningSubmit userID (NewDatabaseService db) = false
  ∧ GetUserRunningSubmit userID (NewDatabaseService db) = None.
Proof.
  unfold HasUserRunningSubmit, GetUserRunningSubmit, NewDatabaseService.
  simpl. by rewrite filter_running_reaped.
Qed.

Lemma reap_idemp s : reap (reap s) = reap s.
Proof.
  unfold reap. destruct (is_terminal (SubmitCtx.Status s)) eqn:Hs.
  - by rewrite Hs.
  - done.
Qed.

(** X8. The reaper is idempotent, keeps the users table, and keeps every
    row in its place with its id. *)
Theorem reaper_idempotent db :
  NewDatabaseService (NewDatabaseService db) = NewDatabaseService db
  ∧ users (NewDatabaseService db) = users db
  ∧ SubmitCtx.ID <$> submits (NewDatabaseService db)
    = SubmitCtx.ID <$> submits db.
Proof.
  unfold NewDatabaseService, with_submits. simpl. split; [|split; [done|]].
  - f_equal. rewrite <- list_fmap_compose. apply list_fmap_ext.
    intros i s _. apply reap_idemp.
  - rewrite <- list_fmap_compose. apply list_fmap_ext. intros i s _. simpl.
    unfold reap. by destruct (is_terminal _).
Qed.

(** The order of ids: [String.ltb] is transitive. *)
Lemma string_compare_lt_trans a b c :
  String.compare a b = Lt → String.compare b c = Lt → String.compare a c = Lt.
Proof.
  revert b c. induction a as [|x a IH]; intros [|y b] [|z c]; simpl; try done.
  unfold Ascii.compare.
  destruct (N.compare_spec (N_of_ascii x) (N_of_ascii y)) as [Hxy|Hxy|Hxy];
    destruct (N.compare_spec (N_of_ascii y) (N_of_ascii z)) as [Hyz|Hyz|Hyz];
    try done; intros H1 H2.
  - rewrite (proj2 (N.compare_eq_iff _ _)) by congruence. by eapply IH.
  - by rewrite (proj2 (N.compare_lt_iff _ _)) by lia.
  - by rewrite (proj2 (N.compare_lt_iff _ _)) by lia.
  - by rewrite (proj2 (N.compare_lt_iff _ _)) by lia.
Qed.

Lemma string_ltb_trans a b c :
  String.ltb a b = true → String.ltb b c = true → String.ltb a c = true.
Proof.
  unfold String.ltb. intros H1 H2.
  destruct (String.compare a b) eqn:Hab; try done.
  destruct (String.compare b c) eqn:Hbc; try done.
  by rewrite (string_compare_lt_trans a b c).
Qed.

Lemma string_compare_refl a : String.compare a a = Eq.
Proof.
  induction a as [|x a IH]; [done|]. simpl. unfold Ascii.compare.
  by rewrite N.compare_refl.
Qed.

Lemma string_ltb_irrefl a : String.ltb a a = false.
Proof. unfold String.ltb. by rewrite string_compare_refl. Qed.

(** The loop that keeps the row with the greatest id. *)
Lemma later_of_loop rows found :
  match foldl later_of found rows with
  | Some s =>
      (s ∈ rows ∨ found = Some s)
      ∧ (∀ r, r ∈ rows → String.ltb (SubmitCtx.ID s) (SubmitCtx.ID r) = false)
      ∧ (∀ r, found = Some r →
              String.ltb (SubmitCtx.ID s) (SubmitCtx.ID r) = false)
  | None => rows = [] ∧ found = None
  end.
Proof.
  revert found. induction rows as [|x rows IH]; intros found; simpl.
  - destruct found as [s|]; [|done]. split; [by right|].
    split; [by intros r ?%elem_of_nil|].
    intros r [= <-]. apply string_ltb_irrefl.
  - specialize (IH (later_of found x)).
    destruct (foldl later_of (later_of found x) rows) as [s|];
      [|by destruct IH as [_ H]; destruct found as [b|]; simpl in H;
            [destruct (String.ltb _ _)|]].
    destruct IH as (Hin & Hmax & Hfound).
    assert (∀ r, later_of found x = Some r →
                 (r = x ∨ found = Some r)
                 ∧ String.ltb (SubmitCtx.ID r) (SubmitCtx.ID x) = false
                 ∧ ∀ b, found = Some b →
                        String.ltb (SubmitCtx.ID r) (SubmitCtx.ID b) = false)
      as Hstep.
    { intros r. destruct found as [b|]; simpl.
      - destruct (String.ltb (SubmitCtx.ID b) (SubmitCtx.ID x)) eqn:Hbx;
          intros [= <-].
        + split; [by left|]. split; [apply string_ltb_irrefl|].
          intros b' [= <-].
          destruct (String.ltb (SubmitCtx.ID x) (SubmitCtx.ID b)) eqn:Hxb;
            [|done].
          pose proof (string_ltb_trans _ _ _ Hbx Hxb) as Hbb.
          by rewrite string_ltb_irrefl in Hbb.
        + split; [by right|]. split; [done|].
          intros b' [= <-]. apply string_ltb_irrefl.
      - intros [= <-]. split; [by left|].
        split; [apply string_ltb_irrefl|done]. }
    destruct (later_of found x) as [m|] eqn:Hm;
      [|by destruct found as [b|]; simpl in Hm;
            [destruct (String.ltb _ _)|]].
    destruct (Hstep m eq_refl) as (Hm1 & Hm2 & Hm3).
    assert (∀ t, String.ltb (SubmitCtx.ID m) t = false →
                 String.ltb (SubmitCtx.ID s) t = false) as Hle.
    { intros t Hmt. destruct (String.ltb (SubmitCtx.ID s) t) eqn:Hst; [|done].
      pose proof (Hfound m eq_refl) as Hsm.
      destruct (String.ltb (SubmitCtx.ID m) (SubmitCtx.ID s)) eqn:Hms.
      - by rewrite (string_ltb_trans _ _ _ Hms Hst) in Hmt.
      - (* the ids of [m] and [s] compare equal *)
        unfold String.ltb in Hsm, Hms, Hst, Hmt.
        rewrite String.compare_antisym in Hsm.
        destruct (String.compare (SubmitCtx.ID m) (SubmitCtx.ID s)) eqn:Hc;
          try done.
        apply String.compare_eq_iff in Hc. by rewrite Hc, Hst in Hmt. }
    split; [|split].
    + destruct Hin as [Hin|[= ->]].
      * left. apply elem_of_cons. by right.
      * destruct Hm1 as [->|Hm1]; [left; apply elem_of_cons; by left|].
        by right.
    + intros r [->|Hr]%elem_of_cons; [by apply Hle|by apply Hmax].
    + intros b Hb. apply Hle. by apply Hm3.
Qed.

(** X9. What [GetUserRunningSubmit] returns is a stored submission of the
    user whose status is none of completed, failed and dead, and no such
    submission of the user has a greater id. *)
Theorem GetUserRunningSubmit_latest userID db s :
  GetUserRunningSubmit userID db = Some s →
  s ∈ submits db
  ∧ SubmitCtx.User s = userID
  ∧ (SubmitCtx.Status s ∉ terminal_statuses)
  ∧ ∀ r, r ∈ submits db → is_running_of userID r = true →
         String.ltb (SubmitCtx.ID s) (SubmitCtx.ID r) = false.
Proof.
  unfold GetUserRunningSubmit. intros Hget.
  pose proof (later_of_loop (List.filter (is_running_of userID) (submits db))
                None) as Hloop.
  rewrite Hget in Hloop. destruct Hloop as ([Hin|?] & Hmax & _); [|done].
  apply list_elem_of_In, filter_In in Hin as [Hin Hrun].
  apply list_elem_of_In in Hin. split; [done|].
  unfold is_running_of in Hrun.
  rewrite !andb_true_iff, !negb_true_iff, !bool_decide_eq_false,
    bool_decide_eq_true in Hrun.
  destruct Hrun as (((Hu & H1) & H2) & H3). split; [done|]. split.
  - unfold terminal_statuses. rewrite !elem_of_cons, elem_of_nil. tauto.
  - intros r Hr Hrr. apply Hmax, list_elem_of_In, filter_In.
    split; [by apply list_elem_of_In|done].
Qed.

Lemma GetUserRunningSubmit_latest_witness :
  let s1 := SubmitCtx.with_Status "prep_files" (judged "17" "alice" 1 false 0%Qc) in
  let s2 := SubmitCtx.with_Status "run_workflow" (judged "23" "alice" 2 false 0%Qc) in
  let db := store [s2; judged "9" "alice" 0 true (f64 5); s1] in
  s2 ∈ submits db
  ∧ SubmitCtx.User s2 = "alice"
  ∧ (SubmitCtx.Status s2 ∉ terminal_statuses)
  ∧ ∀ r, r ∈ submits db → is_running_of "alice" r = true →
         String.ltb (SubmitCtx.ID s2) (SubmitCtx.ID r) = false.
Proof.
  intros s1 s2 db. apply (GetUserRunningSubmit_latest "alice" db s2).
  vm_compute. reflexivity.
Defined.

(** X10. [HasUserRunningSubmit] is true exactly when
    [GetUserRunningSubmit] finds a record. *)
Theorem HasUserRunningSubmit_iff userID db :
  HasUserRunningSubmit userID db = true
  ↔ is_Some (GetUserRunningSubmit userID db).
Proof.
  unfold HasUserRunningSubmit, GetUserRunningSubmit.
  pose proof (later_of_loop (List.filter (is_running_of userID) (submits db))
                None) as Hloop.
  rewrite bool_decide_eq_true.
  destruct (foldl later_of None _) as [s|].
  - destruct Hloop as ([Hin|?] & _); [|done]. split; [by eexists|].
    intros _. destruct (List.filter _ _); [by apply elem_of_nil in Hin|].
    simpl. lia.
  - destruct Hloop as [-> _]. simpl. split; [lia|]. by intros [? ?].
Qed.

(** ** Deleting a submission *)





(** ** The primary key of the users table *)

Lemma save_user_keyed u us : users_keyed us → users_keyed (save_user u us).
Proof.
  intros Hk k v. unfold save_user.
  destruct (decide (User.ID u = k)) as [<-|Hne].
  - rewrite lookup_insert_eq. by intros [= <-].
  - rewrite lookup_insert_ne by done. apply Hk.
Qed.

Lemma GetUserByID_keyed token userID db :
  users_keyed (users db) →
  users_keyed (users (GetUserByID token userID db).2).
Proof.
  intros Hk. unfold GetUserByID. destruct (users db !! userID); [done|].
  exact (save_user_keyed _ _ Hk).
Qed.

Lemma save_all_keyed userMap us : users_keyed us → users_keyed (save_all userMap us).
Proof.
  intros Hk. unfold save_all.
  apply (map_fold_weak_ind (λ r (m : gmap string User.t), users_keyed r));
    [done|].
  intros i x m r _ Hr. by apply save_user_keyed.
Qed.

(** X12. Every operation that saves users keeps the users table keyed by
    the [ID] field of its rows. *)
Theorem saves_user_keeps_key problems db db' :
  users_keyed (users db) →
  saves_user problems db db' →
  users_keyed (users db').
Proof.
  intros Hk Hsave.
  destruct Hsave as [token userID db0|token userID submit problem db0
                    |db0 db1 Hscan|token userID db0].
  - exact (save_user_keyed _ _ Hk).
  - unfold UpdateUserSubmitResult.
    pose proof (GetUserByID_keyed token userID db0 Hk) as Hk1.
    destruct (GetUserByID token userID db0) as [user db1].
    exact (save_user_keyed _ _ Hk1).
  - revert Hscan. unfold DoFullUserScan.
    destruct (foldl _ _ _) as [m|]; [|done]. intros [= <-].
    exact (save_all_keyed _ _ Hk).
  - unfold RecalculateUserBestScoresWithProblems.
    pose proof (GetUserByID_keyed token userID db0 Hk) as Hk1.
    destruct (GetUserByID token userID db0) as [user db1].
    exact (save_user_keyed _ _ Hk1).
Qed.

Lemma saves_user_keeps_key_witness :
  let s := judged "1" "bob" 1 true (f64 80) in
  users_keyed (users (UpdateUserSubmitResult "token-b" "bob" s hello (store [s]))).
Proof.
  intros s.
  apply (saves_user_keeps_key problems1 (store [s])).
  - apply (bool_decide_unpack _). vm_compute. exact I.
  - apply saves_incremental.
Defined.

(** ** The full rescan *)

Lemma scan_loop_aborts problems ss m :
  foldl (scan_submit problems) (Some m) ss = None
  ↔ ∃ s, s ∈ ss ∧ m !! SubmitCtx.User s = None.
Proof.
  revert m. induction ss as [|s ss IH]; intros m; simpl.
  - split; [done|]. by intros (s & ?%elem_of_nil & _).
  - destruct (m !! SubmitCtx.User s) as [u|] eqn:Hu.
    + rewrite IH. split.
      * intros (t & Ht & Hm). exists t. split; [apply elem_of_cons; by right|].
        destruct (decide (SubmitCtx.User s = SubmitCtx.User t)) as [He|Hne].
        -- by rewrite <- He, lookup_insert_eq in Hm.
        -- by rewrite lookup_insert_ne in Hm.
      * intros (t & [->|Ht]%elem_of_cons & Hm); [congruence|].
        exists t. split; [done|].
        destruct (decide (SubmitCtx.User s = SubmitCtx.User t)) as [He|Hne].
        -- congruence.
        -- by rewrite lookup_insert_ne.
    + rewrite scan_loop_None. split; [|done]. intros _.
      exists s. split; [apply elem_of_cons; by left|done].
Qed.

(** X13. On a keyed users table the full rescan aborts (the [log.Fatal])
    exactly when some submission names a user without a row; nothing is
    saved then. *)
Theorem DoFullUserScan_aborts_iff problems db :
  users_keyed (users db) →
  DoFullUserScan problems db = None
  ↔ ∃ s, s ∈ submits db ∧ users db !! SubmitCtx.User s = None.
Proof.
  intros Hk. rewrite <- (scan_loop_aborts problems).
  unfold DoFullUserScan. rewrite load_userMap_keyed by done.
  by destruct (foldl _ _ _).
Qed.

Lemma DoFullUserScan_aborts_iff_witness :
  DoFullUserScan problems1 (store [judged "1" "bob" 1 true (f64 5)]) = None
  ↔ ∃ s, s ∈ submits (store [judged "1" "bob" 1 true (f64 5)])
         ∧ users (store [judged "1" "bob" 1 true (f64 5)])
             !! SubmitCtx.User s = None.
Proof.
  apply (DoFullUserScan_aborts_iff problems1
           (store [judged "1" "bob" 1 true (f64 5)])).
  apply (bool_decide_unpack _). vm_compute. exact I.
Defined.

(** X14. A full rescan that completes lowers no best score of any user,
    and afterwards no completed successful submission for a loaded problem
    has a weighted score above the best score its user holds for that
    problem. *)
Theorem DoFullUserScan_bests problems db db' :
  users_keyed (users db) →
  DoFullUserScan problems db = Some db' →
  (∀ k u, users db !! k = Some u →
     ∃ u', users db' !! k = Some u'
           ∧ ∀ p, (lookup0 (User.BestScores u) p
                   <= lookup0 (User.BestScores u') p)%Qc)
  ∧ (∀ s problem u',
       s ∈ submits db → completed_ok s = true →
       problems !! SubmitCtx.Problem s = Some problem →
       users db' !! SubmitCtx.User s = Some u' →
       (weighted s problem
        <= lookup0 (User.BestScores u') (SubmitCtx.Problem s))%Qc).
Proof.
  intros Hk Hscan.
  destruct (DoFullUserScan_keyed _ _ _ Hk Hscan) as (m & Hloop & Hkm & ->).
  destruct (scan_loop_spec _ _ _ _ Hloop) as (Hr & Hset & Hdom).
  simpl. split.
  - intros k u Hu. specialize (Hr k). rewrite Hu in Hr.
    destruct (m !! k) as [v|] eqn:Hv; [|done].
    exists (User.CalculateTotalScore v). rewrite lookup_fmap, Hv.
    split; [done|]. by destruct Hr as [_ Hle].
  - intros s problem u' Hs Hok Hp. rewrite lookup_fmap.
    destruct (m !! SubmitCtx.User s) as [v|] eqn:Hv; [|done].
    intros [= <-]. by apply (Hset s v).
Qed.

Lemma DoFullUserScan_bests_witness :
  let rows := [judged "1" "alice" 1 true (f64 50);
               judged "2" "alice" 2 true (f64 70)] in
  let db' := default (store []) (DoFullUserScan problems1 (store rows)) in
  (∀ k u, users (store rows) !! k = Some u →
     ∃ u', users db' !! k = Some u'
           ∧ ∀ p, (lookup0 (User.BestScores u) p
                   <= lookup0 (User.BestScores u') p)%Qc)
  ∧ (∀ s problem u',
       s ∈ submits (store rows) → completed_ok s = true →
       problems1 !! SubmitCtx.Problem s = Some problem →
       users db' !! SubmitCtx.User s = Some u' →
       (weighted s problem
        <= lookup0 (User.BestScores u') (SubmitCtx.Problem s))%Qc).
Proof.
  intros rows db'.
  apply (DoFullUserScan_bests problems1 (store rows) db').
  - apply (bool_decide_unpack _). vm_compute. exact I.
  - vm_compute. reflexivity.
Defined.

(** ** The incremental update *)

(** X15. On a keyed users table the incremental update leaves the
    submissions and the rows of all other users as they are, and leaves a
    row for the user in which no best score is lower than before. *)
Theorem UpdateUserSubmitResult_frame token userID submit problem db :
  users_keyed (users db) →
  submits (UpdateUserSubmitResult token userID submit problem db) = submits db
  ∧ (∀ k, k ≠ userID →
          users (UpdateUserSubmitResult token userID submit problem db) !! k
          = users db !! k)
  ∧ ∃ u', users (UpdateUserSubmitResult token userID submit problem db)
            !! userID = Some u'
          ∧ ∀ u, users db !! userID = Some u → raised u u'.
Proof.
  intros Hk. unfold UpdateUserSubmitResult.
  destruct (GetUserByID token userID db) as [user db1] eqn:Hget.
  pose proof (GetUserByID_ID _ _ _ _ _ Hk Hget) as Hid.
  set (user' := if completed_ok submit then improve submit problem user
                else user).
  assert (raised user user') as Hraised.
  { unfold user'. destruct (completed_ok submit);
      [apply improve_raised|apply raised_refl]. }
  assert (User.ID (User.CalculateTotalScore user') = userID) as Hid'.
  { rewrite CalculateTotalScore_ID. destruct Hraised as [-> _]. done. }
  destruct (GetUserByID_cases token userID db)
    as [(u & Hu & Heq)|[Hnone Heq]]; rewrite Heq in Hget;
    injection Hget as <- <-; simpl; unfold save_user; rewrite Hid'.
  - split; [done|]. split.
    + intros k Hne. by rewrite lookup_insert_ne.
    + eexists. rewrite lookup_insert_eq. split; [done|].
      intros u0 Hu0. assert (u0 = u) as -> by congruence. done.
  - split; [done|]. split.
    + intros k Hne. by rewrite !lookup_insert_ne.
    + eexists. rewrite lookup_insert_eq. split; [done|].
      intros u0 Hu0. congruence.
Qed.

Lemma UpdateUserSubmitResult_frame_witness :
  let s := judged "1" "alice" 1 true (f64 80) in
  let db := store [s] in
  submits (UpdateUserSubmitResult "token-b" "alice" s hello db) = submits db
  ∧ (∀ k, k ≠ "alice" →
          users (UpdateUserSubmitResult "token-b" "alice" s hello db) !! k
          = users db !! k)
  ∧ ∃ u', users (UpdateUserSubmitResult "token-b" "alice" s hello db)
            !! "alice" = Some u'
          ∧ ∀ u, users db !! "alice" = Some u → raised u u'.
Proof.
  intros s db.
  apply (UpdateUserSubmitResult_frame "token-b" "alice" s hello db).
  apply (bool_decide_unpack _). vm_compute. exact I.
Defined.

(** ** The full rescan as a replay of incremental updates *)







(** ** The targeted rescan *)






(** ** The full and the targeted rescan side by side *)





(** ** Looking a user up by token *)

Lemma GetUserByToken_spec token db :
  match GetUserByToken token db with
  | Some u => ∃ k, users db !! k = Some u ∧ User.Token u = token
  | None => ∀ k u, users db !! k = Some u → User.Token u ≠ token
  end.
Proof.
  unfold GetUserByToken.
  apply (map_fold_weak_ind (λ r (m : gmap string User.t),
    match r with
    | Some u => ∃ k, m !! k = Some u ∧ User.Token u = token
    | None => ∀ k u, m !! k = Some u → User.Token u ≠ token
    end)).
  { intros k u. by rewrite lookup_empty. }
  intros i x m r Hi IH.
  assert (∀ u, (∃ k, m !! k = Some u ∧ User.Token u = token) →
               ∃ k, <[i:=x]> m !! k = Some u ∧ User.Token u = token) as Hold.
  { intros u (k & Hku & Ht). exists k. split; [|done].
    rewrite lookup_insert_ne; [done|]. intros ->. congruence. }
  destruct (bool_decide (User.Token x = token)) eqn:Hx.
  - apply bool_decide_eq_true in Hx.
    assert (∃ k, <[i:=x]> m !! k = Some x ∧ User.Token x = token) as Hnew.
    { exists i. by rewrite lookup_insert_eq. }
    destruct r as [first|]; [|done].
    destruct (String.ltb _ _); [done|by apply Hold].
  - apply bool_decide_eq_false in Hx. destruct r as [first|]; [by apply Hold|].
    intros k u. destruct (decide (i = k)) as [->|Hne].
    + rewrite lookup_insert_eq. by intros [= <-].
    + rewrite lookup_insert_ne by done. apply IH.
Qed.

(** X19. With unique tokens, [GetUserByToken] with the token of a stored
    user returns that user; with a token no stored user has it returns no
    record. *)
Theorem GetUserByToken_finds_owner db k u :
  unique_tokens (users db) →
  users db !! k = Some u →
  GetUserByToken (User.Token u) db = Some u
  ∧ ∀ token, (∀ k' u', users db !! k' = Some u' → User.Token u' ≠ token) →
             GetUserByToken token db = None.
Proof.
  intros Huniq Hu. split.
  - pose proof (GetUserByToken_spec (User.Token u) db) as Hspec.
    destruct (GetUserByToken (User.Token u) db) as [v|].
    + destruct Hspec as (k' & Hv & Htok).
      assert (k' = k) as -> by (by apply (Huniq k' k v u)). congruence.
    + by destruct (Hspec k u Hu).
  - intros token Hnone.
    pose proof (GetUserByToken_spec token db) as Hspec.
    destruct (GetUserByToken token db) as [v|]; [|done].
    destruct Hspec as (k' & Hv & Htok). by destruct (Hnone k' v Hv).
Qed.

Lemma GetUserByToken_finds_owner_witness :
  GetUserByToken (User.Token alice0) (store []) = Some alice0
  ∧ ∀ token, (∀ k' u', users (store []) !! k' = Some u' →
                       User.Token u' ≠ token) →
             GetUserByToken token (store []) = None.
Proof.
  apply (GetUserByToken_finds_owner (store []) "alice" alice0).
  - intros k1 k2 u1 u2 H1 H2 _. simpl in H1, H2.
    apply lookup_singleton_Some in H1 as [<- _].
    by apply lookup_singleton_Some in H2 as [<- _].
  - reflexivity.
Defined.


(** * The front ends *)

(** ** [ColoredIO] *)

(** X20. A [ColoredIO] over a [Userface] never reports an error and
    reports the length of the uncoloured bytes it was given, while the
    buffer of the [Userface] grows by the coloured bytes; the colour is
    kept. *)
Theorem ColoredIO_Write_over_Userface {W : Type} `{Writer W}
    (Colorize : list Byte.byte → N → list Byte.byte) (f : Userface.t W)
    (color : N) (p : list Byte.byte) :
  (ColoredIO_Write Colorize (ColoredIO.mk f color) p).2 = (len p, None)
  ∧ ColoredIO.Color (ColoredIO_Write Colorize (ColoredIO.mk f color) p).1
    = color
  ∧ Userface.Buffer_
      (ColoredIO.Writer_ (ColoredIO_Write Colorize (ColoredIO.mk f color) p).1)
    = (Userface.Buffer_ f ++ Colorize p color)%list.
Proof.
  unfold ColoredIO_Write. simpl.
  pose proof (Userface_Write_buffer f (Colorize p color)) as Hbuf.
  assert ((Userface_Write f (Colorize p color)).2.2 = None) as Herr.
  { unfold Userface_Write. destruct (Userface.Writer_ f) as [sink|]; [|done].
    by destruct (MultiWriter_Write _ _ _ _) as [[b sink'] r]. }
  unfold Write, Userface_Writer.
  destruct (Userface_Write f (Colorize p color)) as [f' [n err]].
  simpl in *. by subst.
Qed.

(** ** The problem manager *)

Lemma LoadProblem_spec fs file pm _p pm' :
  LoadProblem fs file pm = Some (_p, pm') →
  Problem.Weight _p ≠ 0%Qc
  ∧ ProblemManager.problems pm'
    = <[Problem.Id _p := _p]> (ProblemManager.problems pm)
  ∧ ProblemManager.pblms pm'
    = (ProblemManager.pblms pm ++ [Problem.Id _p])%list.
Proof.
  unfold LoadProblem. destruct (ReadFile_ fs file) as [_f|]; [|done].
  destruct (yaml_Unmarshal fs _f) as [q|]; [|done].
  intros [= <- <-]. simpl. split; [|done].
  case_bool_decide as Hw; [|done]. by destruct q.
Qed.

Lemma load_entries_spec fs dir names pm pm' :
  load_entries fs dir names pm = Some pm' →
  (∀ id p, ProblemManager.problems pm !! id = Some p →
           Problem.Id p = id ∧ Problem.Weight p ≠ 0%Qc) →
  (∀ id, id ∈ ProblemManager.pblms pm
         ↔ is_Some (ProblemManager.problems pm !! id)) →
  (∀ id p, ProblemManager.problems pm' !! id = Some p →
           Problem.Id p = id ∧ Problem.Weight p ≠ 0%Qc)
  ∧ (∀ id, id ∈ ProblemManager.pblms pm'
           ↔ is_Some (ProblemManager.problems pm' !! id))
  ∧ length (ProblemManager.pblms pm')
    = (length (ProblemManager.pblms pm) + length names)%nat.
Proof.
  revert pm. induction names as [|name names IH]; intros pm; simpl.
  { intros [= <-] Hid Hin. split; [done|]. split; [done|]. lia. }
  destruct (LoadProblem fs _ pm) as [[_pf pm1]|] eqn:Hload; [|done].
  apply LoadProblem_spec in Hload as (Hw & Hpr & Hl).
  intros Hrest Hid Hin.
  apply IH in Hrest as (Hid' & Hin' & Hlen); simpl.
  - split; [done|]. split; [done|].
    rewrite Hlen. simpl. rewrite Hl, length_app. simpl. lia.
  - intros id p. rewrite Hpr, insert_insert_eq.
    destruct (decide (Problem.Id _pf = id)) as [<-|Hne].
    + rewrite lookup_insert_eq. by intros [= <-].
    + rewrite lookup_insert_ne by done. apply Hid.
  - intros id. rewrite Hl, Hpr, insert_insert_eq, elem_of_app, Hin.
    rewrite list_elem_of_singleton.
    destruct (decide (Problem.Id _pf = id)) as [<-|Hne].
    + rewrite lookup_insert_eq. split; [by eauto|by right].
    + rewrite lookup_insert_ne by done. split; [|by left].
      by intros [?|?].
Qed.

(** X21. When [LoadProblemDir] returns, every problem it holds is stored
    under its own id and has a weight other than zero, the list of ids
    names exactly the ids of the map, with one entry per file of the
    directory, and nothing of the manager's earlier content is left. *)
Theorem LoadProblemDir_spec fs dir pm pm' :
  LoadProblemDir fs dir pm = Some pm' →
  (∀ id p, GetProblem pm' id = Some p →
           Problem.Id p = id ∧ Problem.Weight p ≠ 0%Qc)
  ∧ (∀ id, id ∈ GetProblemList pm' ↔ is_Some (GetProblem pm' id))
  ∧ (∃ names, ReadDir fs dir = Some names
              ∧ length (GetProblemList pm') = length names)
  ∧ LoadProblemDir fs dir NewProblemManager = Some pm'.
Proof.
  unfold LoadProblemDir, GetProblem, GetProblemList.
  destruct (ReadDir fs dir) as [names|]; [|done]. intros Hload.
  apply load_entries_spec in Hload as Hspec; simpl.
  - destruct Hspec as (Hid & Hin & Hlen).
    split; [done|]. split; [done|]. split; [by exists names|done].
  - intros id p. by rewrite lookup_empty.
  - intros id. rewrite lookup_empty. split; [by intros ?%elem_of_nil|].
    by intros [? ?].
Qed.

Lemma LoadProblemDir_spec_witness :
  ∃ pm',
    (∀ id p, GetProblem pm' id = Some p →
             Problem.Id p = id ∧ Problem.Weight p ≠ 0%Qc)
    ∧ (∀ id, id ∈ GetProblemList pm' ↔ is_Some (GetProblem pm' id))
    ∧ (∃ names, ReadDir fs1 "problems" = Some names
                ∧ length (GetProblemList pm') = length names)
    ∧ LoadProblemDir fs1 "problems" NewProblemManager = Some pm'.
Proof.
  eexists.
  apply (LoadProblemDir_spec fs1 "problems"
           (ProblemManager.mk {["old" := hello]} ["old"])).
  vm_compute. reflexivity.
Defined.

(** ** The SSH front end: [omitStr] *)

Lemma string_length_app (s1 s2 : string) :
  String.length (s1 ++ s2) = (String.length s1 + String.length s2)%nat.
Proof. induction s1 as [|c s1 IH]; simpl; [done|]. by rewrite IH. Qed.

Lemma substring_length (s : string) (k : nat) :
  (k ≤ String.length s)%nat → String.length (String.substring 0 k s) = k.
Proof.
  revert k. induction s as [|c s IH]; intros [|k]; simpl; try done; [lia|].
  intros Hk. rewrite IH; [done|lia].
Qed.

(** X22. For a limit of at least three, [omitStr] returns a string no
    longer than the limit: the string itself when it fits, and otherwise a
    string of exactly the limit's length, made of the first [n-3] bytes of
    the string followed by three dots. *)
Theorem omitStr_fits (s : string) (n : Z) :
  (3 ≤ n)%Z →
  ∃ r, omitStr s n = Some r
       ∧ (Z.of_nat (String.length r) ≤ n)%Z
       ∧ ((Z.of_nat (String.length s) ≤ n)%Z → r = s)
       ∧ ((n < Z.of_nat (String.length s))%Z →
          Z.of_nat (String.length r) = n
          ∧ String.substring (Z.to_nat (n - 3)) 3 r = "..."
          ∧ ∀ i, (i < Z.to_nat (n - 3))%nat → String.get i r = String.get i s).
Proof.
  intros Hn. unfold omitStr, slice_to. case_bool_decide as Hfit.
  { exists s. split; [done|]. split; [done|]. split; [done|]. lia. }
  rewrite bool_decide_eq_true_2 by lia.
  rewrite bool_decide_eq_true_2 by lia. simpl.
  eexists. split; [done|].
  assert (String.length (String.substring 0 (Z.to_nat (n - 3)) s)
          = Z.to_nat (n - 3)) as Hlen by (apply substring_length; lia).
  assert (String.length (String.substring 0 (Z.to_nat (n - 3)) s ++ "...")
          = Z.to_nat n) as Hlen'.
  { rewrite string_length_app, Hlen. simpl. lia. }
  rewrite Hlen'. split; [lia|]. split; [lia|]. intros _. split; [lia|]. split.
  - generalize (String.substring 0 (Z.to_nat (n - 3)) s) Hlen.
    generalize (Z.to_nat (n - 3)). clear.
    intros k h. revert k. induction h as [|c h IH]; intros k Hk; simpl in *.
    + by subst.
    + destruct k as [|k]; [done|]. apply IH. lia.
  - intros i Hi. rewrite <- String.append_correct1 by lia.
    rewrite String.substring_correct1 by done. by rewrite Nat.add_0_r.
Qed.

Lemma omitStr_fits_witness :
  ∃ r, omitStr "runtime error in step 2" 20 = Some r
       ∧ (Z.of_nat (String.length r) ≤ 20)%Z
       ∧ ((Z.of_nat (String.length "runtime error in step 2") ≤ 20)%Z
          → r = "runtime error in step 2")
       ∧ ((20 < Z.of_nat (String.length "runtime error in step 2"))%Z →
          Z.of_nat (String.length r) = 20%Z
          ∧ String.substring (Z.to_nat (20 - 3)) 3 r = "..."
          ∧ ∀ i, (i < Z.to_nat (20 - 3))%nat →
                 String.get i r = String.get i "runtime error in step 2").
Proof. apply (omitStr_fits "runtime error in step 2" 20). lia. Defined.

(** X23. [omitStr] panics exactly when the limit is below three and the
    string is longer than the limit. *)
Theorem omitStr_panics_iff (s : string) (n : Z) :
  omitStr s n = None ↔ (n < 3)%Z ∧ (n < Z.of_nat (String.length s))%Z.
Proof.
  unfold omitStr, slice_to. case_bool_decide as Hfit.
  { split; [done|lia]. }
  destruct (decide (3 ≤ n)%Z) as [Hn|Hn].
  - rewrite bool_decide_eq_true_2 by lia.
    rewrite bool_decide_eq_true_2 by lia. simpl. split; [done|lia].
  - rewrite bool_decide_eq_false_2 by lia. simpl. split; [lia|done].
Qed.

(** ** The SSH front end: the ranks of [handleRank] *)

Lemma above_app score l1 l2 :
  above score (l1 ++ l2) = (above score l1 + above score l2)%nat.
Proof. unfold above. by rewrite List.filter_app, length_app. Qed.

Lemma above_all score l :
  Forall (λ u, (score < User.TotalScore u)%Qc) l → above score l = length l.
Proof.
  unfold above. induction 1 as [|u l Hu _ IH]; simpl; [done|].
  apply f64_lt_true in Hu. rewrite Hu. simpl. by rewrite IH.
Qed.

Lemma above_none score l :
  Forall (λ u, (User.TotalScore u <= score)%Qc) l → above score l = 0%nat.
Proof.
  unfold above. induction 1 as [|u l Hu _ IH]; simpl; [done|].
  apply f64_lt_false in Hu. by rewrite Hu.
Qed.

Lemma by_score_desc_split seen u rest :
  by_score_desc (seen ++ u :: rest) →
  Forall (λ x, (User.TotalScore u <= User.TotalScore x)%Qc) seen
  ∧ Forall (λ y, (User.TotalScore y <= User.TotalScore u)%Qc) rest.
Proof.
  intros Hsorted. split; apply Forall_lookup; intros i x Hx.
  - apply (Hsorted i (length seen) x u).
    + apply lookup_lt_Some in Hx. lia.
    + by apply lookup_app_l_Some.
    + by rewrite list_lookup_middle.
  - apply (Hsorted (length seen) (length seen + S i)%nat u x).
    + lia.
    + by rewrite list_lookup_middle.
    + rewrite lookup_app_r by lia.
      by replace (length seen + S i - length seen)%nat with (S i) by lia.
Qed.

Lemma by_score_desc_last seen v rest :
  by_score_desc (seen ++ rest) → last seen = Some v →
  Forall (λ x, (User.TotalScore v <= User.TotalScore x)%Qc) seen.
Proof.
  intros Hsorted Hlast. apply Forall_lookup. intros i x Hx.
  rewrite last_lookup in Hlast.
  apply (Hsorted i (pred (length seen)) x v).
  - apply lookup_lt_Some in Hx. lia.
  - by apply lookup_app_l_Some.
  - by apply lookup_app_l_Some.
Qed.

Lemma rank_loop_spec rest : ∀ seen cursoc currk,
  by_score_desc (seen ++ rest) →
  (seen = [] ∧ currk = 0%nat)
  ∨ (∃ v, last seen = Some v ∧ User.TotalScore v = cursoc
          ∧ currk = above cursoc seen) →
  ∀ j u, rest !! j = Some u →
    rank_loop cursoc currk (length seen) rest !! j
    = Some (Itoa (Z.of_nat (above (User.TotalScore u) (seen ++ rest)) + 1)).
Proof.
  induction rest as [|u0 rest IH]; intros seen cursoc currk Hsorted Hinv j u;
    [done|].
  pose proof (by_score_desc_split _ _ _ Hsorted) as [Hbefore Hafter].
  cbn [rank_loop].
  set (changed := negb (bool_decide (User.TotalScore u0 = cursoc))).
  set (currk' := if changed then length seen else currk).
  set (cursoc' := if changed then User.TotalScore u0 else cursoc).
  assert (cursoc' = User.TotalScore u0) as Hcur.
  { unfold cursoc', changed. by case_bool_decide. }
  assert (above (User.TotalScore u0) [u0] = 0%nat) as Hself.
  { apply above_none, Forall_singleton, Qcle_refl. }
  assert (currk' = above (User.TotalScore u0) seen) as Hrk.
  { unfold currk', changed. case_bool_decide as Heq; simpl.
    - destruct Hinv as [[-> ->]|(v & Hlast & Hv & ->)]; [done|].
      by rewrite Heq.
    - symmetry. apply above_all.
      destruct Hinv as [[-> _]|(v & Hlast & Hv & _)]; [done|].
      pose proof (by_score_desc_last _ _ _ Hsorted Hlast) as Hlastle.
      assert (v ∈ seen) as Hin.
      { rewrite last_lookup in Hlast. by eapply list_elem_of_lookup_2. }
      rewrite Forall_forall in Hbefore. pose proof (Hbefore v Hin) as Hle.
      assert (User.TotalScore u0 < User.TotalScore v)%Qc as Hlt.
      { apply Qcle_lt_or_eq in Hle as [Hlt|Heq']; [done|]. congruence. }
      eapply Forall_impl; [exact Hlastle|]. intros x Hx. simpl in Hx.
      by eapply Qclt_le_trans. }
  destruct j as [|j]; simpl.
  - intros [= <-]. do 3 f_equal.
    rewrite above_app, (above_app _ [u0] rest : above _ (u0 :: rest) = _).
    rewrite Hself, (above_none _ rest Hafter). lia.
  - intros Hu.
    replace (S (length seen)) with (length (seen ++ [u0]))
      by (rewrite length_app; simpl; lia).
    rewrite (IH (seen ++ [u0])%list cursoc' currk') with (u := u).
    + by rewrite <- app_assoc.
    + by rewrite <- app_assoc.
    + right. exists u0. rewrite last_snoc. split; [done|]. split; [done|].
      by rewrite Hcur, above_app, Hself, Hrk, Nat.add_0_r.
    + done.
Qed.

(** X24. For users listed by falling total score, the rank [handleRank]
    gives a user is one more than the number of users with a higher total:
    users with equal totals share a rank and the next rank skips
    accordingly. *)
Theorem ranks_of_spec users_ i u :
  by_score_desc users_ → users_ !! i = Some u →
  ranks_of users_ !! i
  = Some (Itoa (Z.of_nat (above (User.TotalScore u) users_) + 1)).
Proof.
  intros Hsorted Hu.
  apply (rank_loop_spec users_ [] (-1)%Qc 0%nat Hsorted); [by left|done].
Qed.

Lemma ranks_of_spec_witness :
  ranks_of [scored "a" (f64 90); scored "b" (f64 90); scored "c" (f64 50)]
    !! 2%nat
  = Some (Itoa (Z.of_nat (above (User.TotalScore (scored "c" (f64 50)))
                            [scored "a" (f64 90); scored "b" (f64 90);
                             scored "c" (f64 50)]) + 1)).
Proof.
  apply (ranks_of_spec
           [scored "a" (f64 90); scored "b" (f64 90); scored "c" (f64 50)]
           2 (scored "c" (f64 50))); [|reflexivity].
  intros i j x y Hij Hi Hj.
  destruct i as [|[|[|i]]], j as [|[|[|j]]]; simpl in *; simplify_eq;
    try lia; by vm_compute.
Defined.

(** ** The HTTP read API *)

Lemma IsAdmin_elem admins userID :
  IsAdmin admins userID = true ↔ userID ∈ admins.
Proof.
  induction admins as [|admin admins IH]; simpl.
  - split; [done|by intros ?%elem_of_nil].
  - rewrite elem_of_cons. case_bool_decide as He.
    + split; [by left|done].
    + rewrite IH. split; [by right|]. by intros [?|?].
Qed.

(** X25. The route [GET /api/v1/status/:id] discloses a submission only to
    a request whose cookie is the token of a stored user who is an
    administrator or the author of the submission, and the submission it
    discloses is a stored row with the requested id. *)
Theorem status_route_discloses admins cookie id db s :
  status_route admins cookie id db = OK_submit s →
  ∃ token k u,
    cookie = Some token
    ∧ users db !! k = Some u ∧ User.Token u = token
    ∧ s ∈ submits db ∧ SubmitCtx.ID s = id ∧ id ≠ ""
    ∧ (User.ID u ∈ admins ∨ SubmitCtx.User s = User.ID u).
Proof.
  unfold status_route, AuthMiddleware. destruct cookie as [token|]; [|done].
  pose proof (GetUserByToken_spec token db) as Hspec.
  destruct (GetUserByToken token db) as [u|]; [|done].
  destruct Hspec as (k & Hu & Htok). unfold getSubmitDetail.
  case_bool_decide as Hid; [done|].
  destruct (GetSubmitByID id db) as [submit|] eqn:Hget; [|done].
  destruct (negb (IsAdmin admins (User.ID u))
            && negb (bool_decide (SubmitCtx.User submit = User.ID u)))
    eqn:Hallowed; [done|].
  intros [= <-]. exists token, k, u. split; [done|]. split; [done|].
  split; [done|]. split.
  { unfold GetSubmitByID in Hget. apply find_some in Hget as [Hin _].
    by apply list_elem_of_In. }
  split; [by apply GetSubmitByID_ID in Hget|]. split; [done|].
  apply andb_false_iff in Hallowed as [Ha|Ha]; apply negb_false_iff in Ha.
  - left. by apply IsAdmin_elem.
  - right. by apply bool_decide_eq_true in Ha.
Qed.

Lemma status_route_discloses_witness :
  ∃ token k u,
    Some "token-a" = Some token
    ∧ users (store [judged "1" "alice" 1 true (f64 50)]) !! k = Some u
    ∧ User.Token u = token
    ∧ judged "1" "alice" 1 true (f64 50)
      ∈ submits (store [judged "1" "alice" 1 true (f64 50)])
    ∧ SubmitCtx.ID (judged "1" "alice" 1 true (f64 50)) = "1" ∧ "1" ≠ ""
    ∧ (User.ID u ∈ ["root"]
       ∨ SubmitCtx.User (judged "1" "alice" 1 true (f64 50)) = User.ID u).
Proof.
  apply (status_route_discloses ["root"] (Some "token-a") "1"
           (store [judged "1" "alice" 1 true (f64 50)])).
  vm_compute. reflexivity.
Defined.

(** X26. To a caller who is no administrator, [listSubmits] names no user
    but the caller: every row it returns carries the caller's name or
    Anonymous, and apart from the name the rows are those fetched, in the
    same order. *)
Theorem listSubmits_hides_other_users user submits_ :
  Forall (λ s, SubmitCtx.User s = user ∨ SubmitCtx.User s = "Anonymous")
    (anonymize user false submits_)
  ∧ with_User "" <$> anonymize user false submits_
    = with_User "" <$> submits_.
Proof.
  unfold anonymize. simpl. split.
  - apply Forall_fmap, Forall_true. intros s. simpl.
    case_bool_decide; simpl; [by left|by right].
  - rewrite <- list_fmap_compose. apply list_fmap_ext. intros _ s _. simpl.
    by case_bool_decide.
Qed.

(** ** What a run keeps of its context *)

Lemma steady_ret {A} (a : A) : steady (mret a : Judge A).
Proof. intros st. exists []. simpl. by rewrite app_nil_r. Qed.

Lemma steady_return {A} : steady (return_ : Judge A).
Proof. intros st. exists []. simpl. by rewrite app_nil_r. Qed.

Lemma steady_get_ctx : steady get_ctx.
Proof. intros st. exists []. simpl. by rewrite app_nil_r. Qed.

Lemma steady_tick : steady tick.
Proof. intros st. exists []. simpl. by rewrite app_nil_r. Qed.

Lemma steady_defer cid : steady (defer cid).
Proof. intros st. exists []. simpl. by rewrite app_nil_r. Qed.

Lemma steady_modify_ctx f :
  (∀ c, identity (f c) = identity c) → steady (modify_ctx f).
Proof. intros Hf st. exists []. simpl. by rewrite app_nil_r. Qed.

Lemma steady_emit e : (∀ c, e ≠ EvUpdateSubmit c) → steady (emit e).
Proof.
  intros He st. exists [e]. simpl. split; [done|]. split; [done|].
  apply Forall_singleton. destruct e; try done. by destruct (He c).
Qed.

Lemma steady_bind {A B} (m : Judge A) (k : A → Judge B) :
  steady m → (∀ a, steady (k a)) → steady (bind m k).
Proof.
  intros Hm Hk st. unfold bind.
  destruct (Hm st) as (Δ1 & Htr1 & Hid1 & Hs1).
  destruct (m st) as [[a|] st1]; simpl in *; [|by exists Δ1].
  destruct (Hk a st1) as (Δ2 & Htr2 & Hid2 & Hs2).
  exists (Δ1 ++ Δ2)%list. rewrite Htr2, Htr1, Hid2, Hid1, <- app_assoc.
  split; [done|]. split; [done|]. apply Forall_app. split; [done|].
  by rewrite <- Hid1.
Qed.

Lemma steady_seq {A B} (m : Judge A) (k : Judge B) :
  steady m → steady k → steady (m ;; k).
Proof. intros Hm Hk. by apply steady_bind. Qed.

Lemma steady_range_loop {A St} (body : nat → A → St → Judge St) l :
  (∀ i x s, steady (body i x s)) → ∀ i s, steady (range_loop body i l s).
Proof.
  intros Hbody. induction l as [|x l IH]; intros i s; simpl.
  - apply steady_ret.
  - apply steady_bind; [apply Hbody|]. intros s'. apply IH.
Qed.

Section Steady_evaluator.
Variable w : World.
Variable cfg : Config.t.

Lemma steady_SetStatus status : steady (SetStatus w status).
Proof. apply steady_bind; [apply steady_tick|]. intros n. by apply steady_modify_ctx. Qed.

Lemma steady_SetMsg msg : steady (SetMsg w msg).
Proof. apply steady_bind; [apply steady_tick|]. intros n. by apply steady_modify_ctx. Qed.

Lemma steady_persist : steady (persist w).
Proof.
  intros st. eexists [_]. cbv [persist bind tick modify_ctx get_ctx emit
                               mbind Judge_bind]. simpl.
  split; [done|]. split; [done|]. by apply Forall_singleton.
Qed.

Lemma steady_fail {A} msg : steady (fail w msg : Judge A).
Proof.
  apply steady_seq; [apply steady_SetStatus|].
  apply steady_seq; [apply steady_SetMsg|].
  apply steady_seq; [apply steady_persist|apply steady_return].
Qed.

Lemma steady_discard_call call : steady (discard_call call).
Proof. apply steady_bind; [apply steady_tick|]. intros n. apply steady_ret. Qed.

Lemma steady_copyFile src dst : steady (copyFile w src dst).
Proof.
  unfold copyFile. apply steady_bind; [apply steady_tick|]. intros n1.
  destruct (os_Open w n1 src); [|apply steady_ret].
  apply steady_bind; [apply steady_tick|]. intros n2.
  destruct (os_Create w n2 dst); simpl; [|apply steady_ret].
  apply steady_bind; [apply steady_tick|]. intros n3.
  destruct (io_Copy w n3 src dst); simpl; [|apply steady_ret].
  apply steady_bind; [apply steady_tick|]. intros n4.
  destruct (file_Sync w n4 dst); simpl; apply steady_ret.
Qed.

Lemma steady_submitFile entry submits_dir submit_path :
  steady (submitFile w entry submits_dir submit_path).
Proof.
  unfold submitFile. apply steady_bind; [apply steady_get_ctx|]. intros c.
  apply steady_seq; [apply steady_discard_call|].
  apply steady_seq; [apply steady_discard_call|].
  apply steady_bind; [apply steady_copyFile|]. intros [hash|].
  - apply steady_seq; [apply steady_discard_call|].
    apply steady_seq; [apply steady_discard_call|].
    apply steady_seq; [by apply steady_modify_ctx|].
    apply steady_seq; [by apply steady_emit|apply steady_ret].
  - apply steady_seq; [by apply steady_emit|apply steady_ret].
Qed.

Lemma steady_walk entry submits_dir dir_path visits :
  steady (walk w entry submits_dir dir_path visits).
Proof.
  induction visits as [|v visits IH]; simpl; [apply steady_ret|].
  destruct (visit_err v).
  { apply steady_seq; [by apply steady_emit|apply steady_ret]. }
  destruct (visit_IsDir v); simpl; [done|].
  apply steady_bind; [apply steady_submitFile|]. intros [|]; [apply steady_ret|done].
Qed.

Lemma steady_stage submits_dir submit : steady (stage w submits_dir submit).
Proof.
  unfold stage. destruct (Submit.IsDir submit); simpl.
  - apply steady_bind; [apply steady_get_ctx|]. intros c.
    apply steady_bind; [apply steady_tick|]. intros n.
    apply steady_bind; [apply steady_walk|].
    intros [|]; [apply steady_fail|apply steady_ret].
  - apply steady_bind; [apply steady_submitFile|].
    intros [|]; [apply steady_fail|apply steady_ret].
Qed.

Lemma steady_all_ok calls : steady (all_ok calls).
Proof.
  induction calls as [|call calls IH]; simpl; [apply steady_ret|].
  apply steady_bind; [apply steady_tick|]. intros n.
  destruct (call n); [done|apply steady_ret].
Qed.

Lemma steady_run_step idx workflow cid envs sidx step steps :
  steady (run_step w idx workflow cid envs sidx step steps).
Proof.
  unfold run_step.
  apply steady_seq; [apply steady_SetStatus|].
  apply steady_seq; [apply steady_persist|].
  apply steady_bind; [apply steady_tick|]. intros n.
  destruct (docker_ExecContainer w n cid step _ _ envs _) as [[ec logs] err].
  apply steady_seq; [by apply steady_emit|].
  destruct (bool_decide (ec ≠ 0%Z) || err); [apply steady_fail|].
  apply steady_seq; [apply steady_persist|apply steady_ret].
Qed.

Lemma steady_run_workflow sd wd rsd rwd idx workflow :
  steady (run_workflow w cfg sd wd rsd rwd idx workflow).
Proof.
  unfold run_workflow. apply steady_bind; [apply steady_get_ctx|]. intros c.
  apply steady_seq; [apply steady_SetStatus|].
  apply steady_seq; [apply steady_persist|].
  apply steady_bind; [apply steady_tick|]. intros n.
  destruct (docker_RunImage w n _) as [[|] cid]; simpl.
  - apply steady_seq; [by apply steady_emit|].
    apply steady_seq; [apply steady_defer|].
    apply steady_bind; [apply steady_range_loop; intros; apply steady_run_step|].
    intros steps. apply steady_bind; [apply steady_tick|]. intros n'.
    destruct (docker_GetContainerLogs w n' cid).
    + apply steady_seq; [by apply steady_emit|by apply steady_modify_ctx].
    + apply steady_seq; [by apply steady_emit|apply steady_fail].
  - apply steady_seq; [by apply steady_emit|apply steady_fail].
Qed.

Lemma steady_RunJudge_body problem : steady (RunJudge_body w cfg problem).
Proof.
  unfold RunJudge_body.
  apply steady_seq; [apply steady_SetStatus|].
  apply steady_seq; [apply steady_persist|].
  apply steady_bind; [apply steady_get_ctx|]. intros c.
  apply steady_bind; [apply steady_all_ok|]. intros [|]; simpl; [|apply steady_fail].
  apply steady_seq; [apply steady_SetStatus|].
  apply steady_seq; [apply steady_persist|].
  apply steady_seq; [apply steady_range_loop; intros; apply steady_stage|].
  apply steady_seq; [apply steady_SetStatus|].
  apply steady_seq; [apply steady_persist|].
  apply steady_seq; [apply steady_range_loop; intros; apply steady_run_workflow|].
  apply steady_seq; [apply steady_SetStatus|].
  apply steady_seq; [apply steady_persist|].
  apply steady_bind; [apply steady_tick|]. intros n.
  destruct (os_ReadFile w n _) as [_result|]; [|apply steady_fail].
  apply steady_bind; [apply steady_get_ctx|]. intros c'.
  destruct (json_Unmarshal w _result _) as [jr [|]]; simpl.
  - apply steady_seq; [by apply steady_modify_ctx|].
    apply steady_seq; [apply steady_SetStatus|].
    apply steady_seq; [apply steady_SetMsg|apply steady_persist].
  - apply steady_seq; [by apply steady_modify_ctx|apply steady_fail].
Qed.
End Steady_evaluator.

Lemma RunJudge_steady w cfg c problem :
  identity (ctx (RunJudge w cfg c problem)) = identity c
  ∧ Forall (saves_as (identity c)) (trace (RunJudge w cfg c problem)).
Proof.
  unfold RunJudge.
  destruct (steady_RunJudge_body w cfg problem (start c))
    as (Δ1 & Htr1 & Hid1 & Hs1).
  destruct (RunJudge_body w cfg problem (start c)) as [o stb]. simpl in *.
  split; [exact Hid1|]. rewrite Htr1.
  repeat (apply Forall_app; split); [done| |by apply Forall_singleton|].
  - by apply Forall_fmap, Forall_true.
  - apply Forall_singleton. exact Hid1.
Qed.

(** X27. A run never changes the id, the user, the problem, the submit
    time or the directories of its context, and every save of the run
    writes the context under this same identity. *)
Theorem RunJudge_keeps_identity w cfg c problem :
  identity (ctx (RunJudge w cfg c problem)) = identity c
  ∧ ∀ c', EvUpdateSubmit c' ∈ trace (RunJudge w cfg c problem) →
          identity c' = identity c.
Proof.
  destruct (RunJudge_steady w cfg c problem) as [Hid Hs].
  split; [done|]. intros c' Hin. rewrite Forall_forall in Hs.
  exact (Hs _ Hin).
Qed.

(** ** [UpdateSubmit] against the update of the user *)

Lemma UpdateUserSubmitResult_unfold token userID submit problem db :
  users_keyed (users db) →
  UpdateUserSubmitResult token userID submit problem db
  = with_users
      (<[userID :=
           User.CalculateTotalScore
             (if completed_ok submit
              then improve submit problem
                     (default (User.mk userID token ∅ ∅ ∅ 0%Qc)
                        (users db !! userID))
              else default (User.mk userID token ∅ ∅ ∅ 0%Qc)
                     (users db !! userID))]> (users db)) db.
Proof.
  intros Hk. unfold UpdateUserSubmitResult, UpdateUser, save_user.
  destruct (GetUserByID_cases token userID db)
    as [(u & Hu & ->)|[Hnone ->]].
  - rewrite Hu. simpl.
    assert (User.ID (if completed_ok submit then improve submit problem u
                     else u) = userID) as ->; [|done].
    destruct (completed_ok submit); [rewrite improve_ID|]; by apply (Hk userID).
  - rewrite Hnone. simpl.
    assert (User.ID (if completed_ok submit
                     then improve submit problem
                            (User.mk userID token ∅ ∅ ∅ 0%Qc)
                     else User.mk userID token ∅ ∅ ∅ 0%Qc) = userID) as ->.
    { by destruct (completed_ok submit); [rewrite improve_ID|]. }
    unfold with_users. simpl. by rewrite insert_insert_eq.
Qed.


(** X28. The last save of a run and the update of the user's scores that
    [handleSubmit] starts once [ctx.Running] is closed give the same store
    in either order: the save changes only the submissions and stamps only
    [LastUpdate], which the update of the user does not read. *)
Theorem UpdateSubmit_commutes_with_user_update now token userID submit
    problem db :
  UpdateUserSubmitResult token userID
    (SubmitCtx.with_LastUpdate now submit) problem (UpdateSubmit now submit db)
  = UpdateSubmit now submit
      (UpdateUserSubmitResult token userID submit problem db).
Proof.
  unfold UpdateUserSubmitResult, UpdateSubmit.
  destruct (GetUserByID_cases token userID db)
    as [(u & Hu & Hget)|[Hnone Hget]]; rewrite Hget.
  - unfold GetUserByID. simpl. by rewrite Hu.
  - unfold GetUserByID. simpl. by rewrite Hnone.
Qed.

(** ** [handleSubmit] *)

Lemma persisted_users tr : ∀ db, users (persisted tr db) = users db.
Proof.
  unfold persisted. induction tr as [|e tr IH]; intros db; simpl; [done|].
  rewrite IH. by destruct e.
Qed.

Lemma persisted_app tr1 tr2 db :
  persisted (tr1 ++ tr2) db = persisted tr2 (persisted tr1 db).
Proof. unfold persisted. apply foldl_app. Qed.

Lemma persisted_other id tr : ∀ db,
  (∀ c, EvUpdateSubmit c ∈ tr → SubmitCtx.ID c ≠ id) →
  GetSubmitByID id (persisted tr db) = GetSubmitByID id db.
Proof.
  unfold persisted, GetSubmitByID.
  induction tr as [|e tr IH]; intros db Hne; simpl; [done|].
  rewrite IH by (intros c Hin; apply Hne, elem_of_cons; by right).
  destruct e; try done. simpl. apply find_save_submit_ne.
  intros Heq. apply (Hne c); [apply elem_of_cons; by left|done].
Qed.


Lemma handleSubmit_row w cfg dirs pm token user cmd pid pb subtime db :
  GetProblem pm pid = Some pb →
  let c0 := new_SubmitCtx (path_Join w) (SubmitsDir dirs) (SubmitWorkDir dirs)
              (RealSubmitWorkDir dirs) user pid subtime in
  let s := ctx (RunJudge w cfg c0 pb) in
  handleSubmit w cfg dirs pm token user [cmd; pid] subtime db
  = UpdateUserSubmitResult token user s pb
      (persisted (trace (RunJudge w cfg c0 pb)) db)
  ∧ identity s = identity c0
  ∧ GetSubmitByID (Itoa subtime)
      (persisted (trace (RunJudge w cfg c0 pb)) db) = Some s
  ∧ (∀ id, id ≠ Itoa subtime →
           GetSubmitByID id (persisted (trace (RunJudge w cfg c0 pb)) db)
           = GetSubmitByID id db).
Proof.
  intros Hpb c0 s. unfold handleSubmit. rewrite Hpb.
  destruct (RunJudge_steady w cfg c0 pb) as [Hid Hs].
  split; [done|]. split; [done|].
  assert (SubmitCtx.ID s = Itoa subtime) as HID.
  { apply (f_equal (λ i, i.1.1.1.1.1.1)) in Hid. exact Hid. }
  split.
  - destruct (RunJudge_trace w cfg c0 pb) as (body & cids & Htr & _).
    rewrite Htr, !app_assoc, persisted_app. fold s.
    unfold persisted at 1. simpl. unfold GetSubmitByID. simpl.
    rewrite <- HID. apply find_save_submit.
  - intros id Hne. apply persisted_other. intros c Hin.
    rewrite Forall_forall in Hs. apply Hs in Hin. simpl in Hin.
    apply (f_equal (λ i, i.1.1.1.1.1.1)) in Hin. simpl in Hin. congruence.
Qed.



(** X30. After a submit command for a known problem the caller has a row
    whose total is the sum of its best scores, and the rows of all other
    users are as before.  When the stored verdict is not a completed
    success the caller's best scores and best submissions are those held
    before (none for a new user); when it is, the best score for the
    problem is at least the weighted score of the verdict and no best
    score is lower than before. *)
Theorem handleSubmit_updates_user w cfg dirs pm token user cmd pid pb
    subtime db :
  users_keyed (users db) →
  GetProblem pm pid = Some pb →
  ∃ s u',
    GetSubmitByID (Itoa subtime)
      (handleSubmit w cfg dirs pm token user [cmd; pid] subtime db) = Some s
    ∧ users (handleSubmit w cfg dirs pm token user [cmd; pid] subtime db)
        !! user = Some u'
    ∧ User.ID u' = user
    ∧ total_ok u'
    ∧ (∀ k, k ≠ user →
            users (handleSubmit w cfg dirs pm token user [cmd; pid] subtime db)
              !! k = users db !! k)
    ∧ (completed_ok s = false →
       User.BestScores u'
       = User.BestScores (default (User.mk user token ∅ ∅ ∅ 0%Qc)
                            (users db !! user))
       ∧ User.BestSubmits u'
         = User.BestSubmits (default (User.mk user token ∅ ∅ ∅ 0%Qc)
                               (users db !! user)))
    ∧ (completed_ok s = true →
       (weighted s pb <= lookup0 (User.BestScores u') pid)%Qc
       ∧ ∀ p, (lookup0 (User.BestScores
                          (default (User.mk user token ∅ ∅ ∅ 0%Qc)
                             (users db !! user))) p
               <= lookup0 (User.BestScores u') p)%Qc).
Proof.
  intros Hk Hpb.
  destruct (handleSubmit_row w cfg dirs pm token user cmd pid pb subtime db
              Hpb) as (-> & Hid & Hget & Hother).
  set (c0 := new_SubmitCtx _ _ _ _ _ _ _) in *.
  set (s := ctx (RunJudge w cfg c0 pb)) in *.
  set (db1 := persisted (trace (RunJudge w cfg c0 pb)) db) in *.
  assert (users db1 = users db) as Hus by apply persisted_users.
  rewrite UpdateUserSubmitResult_unfold by (by rewrite Hus).
  rewrite Hus. simpl.
  set (before := default (User.mk user token ∅ ∅ ∅ 0%Qc) (users db !! user)).
  assert (User.ID before = user) as Hbefore.
  { unfold before. destruct (users db !! user) as [u|] eqn:Hu; [|done].
    by apply (Hk user). }
  eexists s, _. split; [exact Hget|]. rewrite lookup_insert_eq.
  split; [done|]. split.
  { rewrite CalculateTotalScore_ID.
    by destruct (completed_ok s); [rewrite improve_ID|]. }
  split; [apply CalculateTotalScore_ok|]. split.
  { intros k Hne. by rewrite lookup_insert_ne. }
  split.
  - intros Hno. by rewrite Hno.
  - intros Hyes. rewrite Hyes. simpl.
    assert (SubmitCtx.Problem s = pid) as Hproblem.
    { by injection Hid as _ _ Hproblem _ _ _ _. }
    rewrite <- Hproblem. split; [apply improve_reached|]. apply improve_raised.
Qed.

Lemma handleSubmit_updates_user_witness :
  ∃ s u',
    GetSubmitByID (Itoa 1700)
      (handleSubmit world_ok cfg1 (mkSubmitDirs "/submits" "/work" "/realwork")
         (ProblemManager.mk {["hello" := hello_py]} ["hello"]) "token-b"
         "bob" ["submit"; "hello"] 1700 (store [])) = Some s
    ∧ users (handleSubmit world_ok cfg1
               (mkSubmitDirs "/submits" "/work" "/realwork")
               (ProblemManager.mk {["hello" := hello_py]} ["hello"])
               "token-b" "bob" ["submit"; "hello"] 1700 (store []))
        !! "bob" = Some u'
    ∧ User.ID u' = "bob"
    ∧ total_ok u'
    ∧ (∀ k, k ≠ "bob" →
            users (handleSubmit world_ok cfg1
                     (mkSubmitDirs "/submits" "/work" "/realwork")
                     (ProblemManager.mk {["hello" := hello_py]} ["hello"])
                     "token-b" "bob" ["submit"; "hello"] 1700 (store []))
              !! k = users (store []) !! k)
    ∧ (completed_ok s = false →
       User.BestScores u'
       = User.BestScores (default (User.mk "bob" "token-b" ∅ ∅ ∅ 0%Qc)
                            (users (store []) !! "bob"))
       ∧ User.BestSubmits u'
         = User.BestSubmits (default (User.mk "bob" "token-b" ∅ ∅ ∅ 0%Qc)
                               (users (store []) !! "bob")))
    ∧ (completed_ok s = true →
       (weighted s hello_py <= lookup0 (User.BestScores u') "hello")%Qc
       ∧ ∀ p, (lookup0 (User.BestScores
                          (default (User.mk "bob" "token-b" ∅ ∅ ∅ 0%Qc)
                             (users (store []) !! "bob"))) p
               <= lookup0 (User.BestScores u') p)%Qc).
Proof.
  apply (handleSubmit_updates_user world_ok cfg1
           (mkSubmitDirs "/submits" "/work" "/realwork")
           (ProblemManager.mk {["hello" := hello_py]} ["hello"]) "token-b"
           "bob" "submit" "hello" hello_py 1700 (store [])).
  - apply (bool_decide_unpack _). vm_compute. exact I.
  - vm_compute. reflexivity.
Defined.
